(** * PitchLife: the Game of Life grid of [src/js/GameOfLife.js]

    A shallow embedding of the simulation engine: the cell-type lookup table
    ([initCellLookup]), the [Grid] constructor and its methods [isValidCell],
    [setCell], [getCell], [determineCellType], [calcLivingNeighbors] and
    [update].

    Modelling conventions.
    - JavaScript numbers that hold grid coordinates, sizes and cell states are
      integers ([Z]).  A running sum that may have absorbed [undefined] is a
      [number]: an integer or [NaN].
    - A JavaScript array is an object indexed by integer keys: it is a
      [gmap Z _].  Reading a missing key gives [undefined], which is [None];
      writing any key (also a negative one) adds or overwrites the entry.
    - A method that can throw a [TypeError] returns an [option].

    Beyond the grid, the development follows the cells drawn by
    [renderCells], the pattern read by [respondToLoadedImage], the stamping
    of [respondToMouseClick], and the timing variables ([timer], [fps],
    [frameInterval]) together with the browser's intervals, as the play/pause
    and frame rate handlers assign them.  The floor of a quotient of integers
    is [Z.div]. *)

From stdpp Require Import base option list numbers gmap.
From Stdlib Require Import ZArith Lia Sorted.

#[local] Open Scope Z_scope.

(** ** Constants *)

(** [var DEAD_CELL = 0; var LIVE_CELL = 1;] *)
Definition DEAD_CELL : Z := 0.
Definition LIVE_CELL : Z := 1.

(** The nine kinds of cell locations ([var TOP_LEFT = 0; ... var CENTER = 8;]). *)
Inductive CellKind : Set :=
  | TOP_LEFT | TOP_RIGHT | BOTTOM_LEFT | BOTTOM_RIGHT
  | TOP | BOTTOM | LEFT | RIGHT | CENTER.

#[global] Instance CellKind_eq_dec : EqDecision CellKind.
Proof. solve_decision. Defined.

(** ** The neighbour lookup table *)

(** [function CellType(initNumNeighbors, initCellValues)] *)
Record CellType : Set := mkCellType {
  numNeighbors : Z;
  cellValues : list Z
}.

(** [initCellLookup]: the table indexed by the kind of cell.  Each array lists
    (column offset, row offset) pairs. *)
Definition cellLookup (kind : CellKind) : CellType :=
  match kind with
  | TOP_LEFT => mkCellType 3 [1; 0; 1; 1; 0; 1]
  | TOP_RIGHT => mkCellType 3 [-1; 0; -1; 1; 0; 1]
  | BOTTOM_LEFT => mkCellType 3 [1; 0; 1; -1; 0; -1]
  | BOTTOM_RIGHT => mkCellType 3 [-1; 0; -1; -1; 0; -1]
  | TOP => mkCellType 5 [-1; 0; -1; 1; 0; 1; 1; 1; 1; 0]
  | BOTTOM => mkCellType 5 [-1; 0; -1; -1; 0; -1; 1; -1; 1; 0]
  | LEFT => mkCellType 5 [0; -1; 1; -1; 1; 0; 1; 1; 0; 1]
  | RIGHT => mkCellType 5 [0; -1; -1; -1; -1; 0; -1; 1; 0; 1]
  | CENTER =>
      mkCellType 8 [-1; -1; -1; 0; -1; 1; 0; 1; 1; 1; 1; 0; 1; -1; 0; -1]
  end.

(** ** Numbers that may be [NaN] *)

Inductive number : Set :=
  | Int (z : Z)
  | NaN.

(** [n += v] where [v] was read from an array: adding [undefined] gives
    [NaN], and [NaN] absorbs every later addition. *)
Definition num_add (n : number) (v : option Z) : number :=
  match n, v with
  | Int a, Some b => Int (a + b)
  | _, _ => NaN
  end.

(** [n < z], [n > z] and [n === z]: every comparison with [NaN] is false. *)
Definition num_ltb (n : number) (z : Z) : bool :=
  match n with Int a => a <? z | NaN => false end.
Definition num_gtb (n : number) (z : Z) : bool :=
  match n with Int a => z <? a | NaN => false end.
Definition num_eqb (n : number) (z : Z) : bool :=
  match n with Int a => a =? z | NaN => false end.

(** ** The grid *)

(** The fields of a [Grid] object.  [_num_cells] is assigned once by the
    constructor from [width] and [height], which are never reassigned, so it
    is a derived quantity here. *)
Record Grid : Type := mkGrid {
  cells : gmap Z Z;
  next : gmap Z Z;
  width : Z;
  height : Z;
  newborns : gmap Z (list Z);
  cell_types : gmap Z CellKind
}.

Definition _num_cells (g : Grid) : Z := width g * height g - 1.

(** [this.isValidCell = function(row, col)] *)
Definition isValidCell (g : Grid) (row col : Z) : bool :=
  (col <? width g) && (row * width g + col <? _num_cells g).

(** [this.setCell = function(row, col, value)] *)
Definition setCell (g : Grid) (row col value : Z) : Grid :=
  if isValidCell g row col then
    mkGrid (<[row * width g + col := value]> (cells g)) (next g)
           (width g) (height g) (newborns g) (cell_types g)
  else g.

(** [this.getCell = function(row, col)]: [None] is [undefined]. *)
Definition getCell (g : Grid) (row col : Z) : option Z :=
  if isValidCell g row col then cells g !! (row * width g + col)
  else Some (-1).

(** [this.determineCellType = function(row, col)] *)
Definition determineCellType (g : Grid) (row col : Z) : option CellKind :=
  cell_types g !! (row * width g + col).

(** [function _getCellType(row, col)], with the constructor's [width] and
    [height] as parameters. *)
Definition _getCellType (width height row col : Z) : CellKind :=
  if (row =? 0) && (col =? 0) then TOP_LEFT
  else if (row =? 0) && (col =? width - 1) then TOP_RIGHT
  else if (row =? height - 1) && (col =? 0) then BOTTOM_LEFT
  else if (row =? height - 1) && (col =? height - 1) then BOTTOM_RIGHT
  else if row =? 0 then TOP
  else if col =? 0 then LEFT
  else if row =? height - 1 then RIGHT
  else if col =? width - 1 then BOTTOM
  else CENTER.

(** The values taken by [counter] in
    [for (counter = 0; counter < numNeighbors * 2; counter += 2)]. *)
Definition counters (ct : CellType) : list nat :=
  (λ k, 2 * k)%nat <$> seq 0 (Z.to_nat (numNeighbors ct)).

(** The position examined at one value of [counter]. *)
Definition neighborCol (ct : CellType) (col : Z) (counter : nat) : Z :=
  col + cellValues ct !!! counter.
Definition neighborRow (ct : CellType) (row : Z) (counter : nat) : Z :=
  row + cellValues ct !!! (counter + 1)%nat.

(** One iteration of the loop body of [calcLivingNeighbors]. *)
Definition countNeighbor (g : Grid) (ct : CellType) (row col : Z)
    (numLivingNeighbors : number) (counter : nat) : number :=
  let index := neighborRow ct row counter * width g
               + neighborCol ct col counter in
  let neighborValue := cells g !! index in
  num_add numLivingNeighbors neighborValue.

(** The loop of [calcLivingNeighbors] once the table entry is known. *)
Definition countLiving (g : Grid) (kind : CellKind) (row col : Z) : number :=
  let cellsToCheck := cellLookup kind in
  foldl (countNeighbor g cellsToCheck row col) (Int 0) (counters cellsToCheck).

(** [this.calcLivingNeighbors = function(row, col)].  When the position has no
    stored cell type, [cellLookup[undefined]] is [undefined] and reading its
    [cellValues] throws: the result is [None]. *)
Definition calcLivingNeighbors (g : Grid) (row col : Z) : option number :=
  cellType ← determineCellType g row col;
  Some (countLiving g cellType row col).

(** A [for] loop whose body may throw. *)
Fixpoint for_each {S A : Type} (body : S → A → option S) (s : S)
    (l : list A) : option S :=
  match l with
  | [] => Some s
  | a :: l' => s' ← body s a; for_each body s' l'
  end.

(** The part of the grid that [update] writes while it loops: [this.next] and
    [this.newborns]. *)
Record Pass : Type := mkPass {
  pass_next : gmap Z Z;
  pass_newborns : gmap Z (list Z)
}.

(** The body of the inner loop of [update] at row [i] and column [j].
    [this.newborns[i].push(j)] throws when the report has no row [i]. *)
Definition update_cell (g : Grid) (i : Z) (p : Pass) (j : Z) : option Pass :=
  numLivingNeighbors ← calcLivingNeighbors g i j;
  let testCell := getCell g i j in
  let index := i * width g + j in
  if decide (testCell = Some LIVE_CELL) then
    if num_ltb numLivingNeighbors 2 || num_gtb numLivingNeighbors 3 then
      Some (mkPass (<[index := DEAD_CELL]> (pass_next p)) (pass_newborns p))
    else
      Some (mkPass (<[index := LIVE_CELL]> (pass_next p)) (pass_newborns p))
  else if num_eqb numLivingNeighbors 3 then
    cols ← pass_newborns p !! i;
    Some (mkPass (<[index := LIVE_CELL]> (pass_next p))
                 (<[i := cols ++ [j]]> (pass_newborns p)))
  else
    Some (mkPass (<[index := DEAD_CELL]> (pass_next p)) (pass_newborns p)).

(** The body of the outer loop: [this.newborns[i] = []], then the columns. *)
Definition update_row (g : Grid) (p : Pass) (i : Z) : option Pass :=
  for_each (update_cell g i)
           (mkPass (pass_next p) (<[i := []]> (pass_newborns p)))
           (seqZ 0 (width g)).

(** [this.update = function()]: [this.newborns = []], the two loops, then the
    exchange of [this.cells] and [this.next]. *)
Definition update (g : Grid) : option Grid :=
  p ← for_each (update_row g) (mkPass (next g) ∅) (seqZ 0 (height g));
  Some (mkGrid (pass_next p) (cells g) (width g) (height g)
               (pass_newborns p) (cell_types g)).

(** The body of the constructor's initialisation loop. *)
Definition init_cell (g : Grid) (i j : Z) : Grid :=
  let index := i * width g + j in
  mkGrid (<[index := DEAD_CELL]> (cells g)) (<[index := DEAD_CELL]> (next g))
         (width g) (height g) (newborns g)
         (<[index := _getCellType (width g) (height g) i j]> (cell_types g)).

(** The constructor's inner loop over the columns [js] of row [i], and its
    outer loop over the rows. *)
Definition init_row (g : Grid) (i : Z) (js : list Z) : Grid :=
  foldl (λ g j, init_cell g i j) g js.

Definition init_rows (js : list Z) (g : Grid) (rows : list Z) : Grid :=
  foldl (λ g i, init_row g i js) g rows.

(** [function Grid(width, height)] *)
Definition new_Grid (width height : Z) : Grid :=
  init_rows (seqZ 0 width) (mkGrid ∅ ∅ width height ∅ ∅) (seqZ 0 height).

(** ** Derived notions used by the statements *)

(** The value [update] stores in [this.next] for a cell whose [getCell] result
    is [testCell] and whose neighbour sum is [n], and whether the cell is
    pushed on the newborn list: the [if]/[else if]/[else] cascade of the loop
    body read as two functions. *)
Definition next_value (testCell : option Z) (n : number) : Z :=
  if decide (testCell = Some LIVE_CELL) then
    if num_ltb n 2 || num_gtb n 3 then DEAD_CELL else LIVE_CELL
  else if num_eqb n 3 then LIVE_CELL else DEAD_CELL.

Definition is_newborn (testCell : option Z) (n : number) : bool :=
  if decide (testCell = Some LIVE_CELL) then false else num_eqb n 3.

(** The neighbour sum of a position whose stored type is the one the
    constructor computes. *)
Definition living (g : Grid) (i j : Z) : number :=
  countLiving g (_getCellType (width g) (height g) i j) i j.

Definition nextCell (g : Grid) (i j : Z) : Z :=
  next_value (getCell g i j) (living g i j).

Definition born (g : Grid) (i j : Z) : bool :=
  is_newborn (getCell g i j) (living g i j).

(** A position of the grid. *)
Definition in_grid (g : Grid) (row col : Z) : Prop :=
  0 ≤ row < height g ∧ 0 ≤ col < width g.

(** [k] is the buffer index of a position of the grid. *)
Definition grid_index (g : Grid) (k : Z) : Prop :=
  ∃ row col, in_grid g row col ∧ k = row * width g + col.

(** The cell-type table is the one the constructor builds for the grid's
    dimensions ([update] and [setCell] never touch it). *)
Definition Grid_wf (g : Grid) : Prop :=
  cell_types g = cell_types (new_Grid (width g) (height g)).

(** The grids a program can hold: built by the constructor, then changed by
    [setCell] and [update] only. *)
Inductive reachable : Grid → Prop :=
  | reach_new (w h : Z) : reachable (new_Grid w h)
  | reach_setCell (g : Grid) (row col value : Z) :
      reachable g → reachable (setCell g row col value)
  | reach_update (g g' : Grid) :
      reachable g → update g = Some g' → reachable g'.

(** Every stored entry of a buffer is [DEAD_CELL] or [LIVE_CELL]. *)
Definition binary (m : gmap Z Z) : Prop :=
  map_Forall (λ _ v, v = DEAD_CELL ∨ v = LIVE_CELL) m.

Definition all_dead (m : gmap Z Z) : Prop :=
  map_Forall (λ _ v, v = DEAD_CELL) m.

(** No entry at or beyond index [width * height]. *)
Definition bounded (g : Grid) (m : gmap Z Z) : Prop :=
  ∀ k, width g * height g ≤ k → m !! k = None.

(** [live_in ps row col]: is [(row, col)] one of the listed positions? *)
Definition live_in (ps : list (Z * Z)) (row col : Z) : bool :=
  existsb (λ p, (p.1 =? row) && (p.2 =? col)) ps.

(** The state of a position when exactly the listed positions are live. *)
Definition state_of (ps : list (Z * Z)) (row col : Z) : Z :=
  if live_in ps row col then LIVE_CELL else DEAD_CELL.

(** The current buffer holds [LIVE_CELL] exactly at the listed positions and
    [DEAD_CELL] at every other position of the grid. *)
Definition live_exactly_at (g : Grid) (ps : list (Z * Z)) : Prop :=
  ∀ row col, in_grid g row col →
    cells g !! (row * width g + col) = Some (state_of ps row col).

(** The two phases of the blinker. *)
Definition horizontal : list (Z * Z) := [(2, 1); (2, 2); (2, 3)].
Definition vertical : list (Z * Z) := [(1, 2); (2, 2); (3, 2)].

(** Example grids: a 3 by 3 grid with a live centre, the same grid with a
    different next buffer, and the 5 by 5 grid with the horizontal blinker. *)
Definition centre_grid : Grid := setCell (new_Grid 3 3) 1 1 LIVE_CELL.


Definition blinker_grid : Grid :=
  setCell (setCell (setCell (new_Grid 5 5) 2 1 LIVE_CELL) 2 2 LIVE_CELL)
          2 3 LIVE_CELL.

(** A buffer of the grid [g] in good order: every position of the grid has an
    entry, and every entry is [DEAD_CELL] or [LIVE_CELL]. *)
Definition holds_states (g : Grid) (m : gmap Z Z) : Prop :=
  binary m ∧
  ∀ row col, in_grid g row col → is_Some (m !! (row * width g + col)).

Definition binary_grid (g : Grid) : Prop :=
  holds_states g (cells g) ∧ holds_states g (next g).

(** The positions [(row, col)] that the loop of [calcLivingNeighbors] examines
    for a cell of the given kind, in the order of the loop. *)
Definition neighbors (kind : CellKind) (row col : Z) : list (Z * Z) :=
  let cellsToCheck := cellLookup kind in
  (λ counter, (neighborRow cellsToCheck row counter,
               neighborCol cellsToCheck col counter))
    <$> counters cellsToCheck.

(** The sum of the states [st] at the positions [qs], in order. *)
Definition total (st : Z → Z → Z) (qs : list (Z * Z)) (start : Z) : Z :=
  foldl (λ a q, a + st q.1 q.2) start qs.

(** ** The rule as the specification words it

    These two definitions follow the specification, not the code: the live
    neighbours of a position are the [LIVE_CELL] entries among the up to eight
    surrounding positions that lie inside the grid, and the standard rule
    keeps a live cell with two or three of them and gives birth to a dead
    cell with exactly three. *)
Definition in_gridb (g : Grid) (row col : Z) : bool :=
  (0 <=? row) && (row <? height g) && (0 <=? col) && (col <? width g).

Definition spec_liveNeighbors (g : Grid) (row col : Z) : Z :=
  let around := [(-1, -1); (-1, 0); (-1, 1); (0, -1);
                 (0, 1); (1, -1); (1, 0); (1, 1)] in
  let live (d : Z * Z) : bool :=
    in_gridb g (row + d.1) (col + d.2) &&
    bool_decide (cells g !! ((row + d.1) * width g + (col + d.2))
                 = Some LIVE_CELL) in
  Z.of_nat (length (filter (λ d, live d) around)).

Definition spec_rule (state n : Z) : Z :=
  if state =? LIVE_CELL then
    if (n <? 2) || (3 <? n) then DEAD_CELL else LIVE_CELL
  else if n =? 3 then LIVE_CELL else DEAD_CELL.

(** What one call of [update] on [g] leaves in [g']. *)
Record updates (g g' : Grid) : Prop := mkUpdates {
  upd_width : width g' = width g;
  upd_height : height g' = height g;
  upd_cell_types : cell_types g' = cell_types g;
  upd_next : next g' = cells g;
  upd_cells_in : ∀ i j, in_grid g i j →
    cells g' !! (i * width g + j) = Some (nextCell g i j);
  upd_cells_out : ∀ k, ¬ grid_index g k → cells g' !! k = next g !! k;
  upd_newborns : ∀ i,
    newborns g' !! i
    = if decide (0 ≤ i < height g)
      then Some (filter (λ j, born g i j) (seqZ 0 (width g)))
      else None
}.

(** The state stored for a position in the current buffer ([DEAD_CELL] when
    the buffer has no entry there). *)
Definition stateAt (g : Grid) (row col : Z) : Z :=
  default DEAD_CELL (cells g !! (row * width g + col)).

(** Example grid: the 5 by 5 grid whose only live cell is (4, 2), on the
    bottom row. *)
Definition bottom_cell_grid : Grid := setCell (new_Grid 5 5) 4 2 LIVE_CELL.

(** ** Drawing the cells *)

(** The arguments of one [canvas2D.fillRect(x, y, w, h)]. *)
Record Rect : Set := mkRect { rect_x : Z; rect_y : Z; rect_w : Z; rect_h : Z }.

(** [function renderCells(grid)]: the rectangles it fills, in order.  The
    outer loop runs while [i <= grid.height]. *)
Definition renderCells (g : Grid) (cellLength : Z) : list Rect :=
  i ← seqZ 0 (height g + 1);
  j ← seqZ 0 (width g);
  if decide (getCell g i j = Some LIVE_CELL)
  then [mkRect (j * cellLength) (i * cellLength) cellLength cellLength]
  else [].

(** ** Patterns *)

(** [a[i] = v] for an index that is at most the length of the array:
    overwrite below the length, append at the length. *)
Definition array_put (a : list Z) (i : nat) (v : Z) : list Z :=
  if decide (i < length a)%nat then <[i := v]> a else a ++ [v].

(** The test [(r < 255) && (g < 255) && (b < 255)] on the pixel that starts
    at index [i] of the RGBA data; a comparison with [undefined] is false. *)
Definition non_white (data : list Z) (i : nat) : bool :=
  match data !! i, data !! (i + 1)%nat, data !! (i + 2)%nat with
  | Some r, Some g, Some b => (r <? 255) && (g <? 255) && (b <? 255)
  | _, _, _ => false
  end.

(** The body of the loop of [respondToLoadedImage] at index [i], on the pair
    of [pixelArray] and [pixelArrayCounter]. *)
Definition keep_pixel (img_width : Z) (data : list Z)
    (st : list Z * nat) (i : nat) : list Z * nat :=
  if non_white data i then
    let x := (Z.of_nat i / 4) `mod` img_width in
    let y := (Z.of_nat i / 4) / img_width in
    (array_put (array_put st.1 st.2 x) (st.2 + 1) y, (st.2 + 2)%nat)
  else st.

(** [function respondToLoadedImage(imgName, img, pixelArray)] from the image
    data on: [data] is [imgData.data] and [img_width] is [img.width], which
    is positive ([getImageData] throws otherwise).  The loop runs over
    [i = 0, 4, 8, ...] below [data.length]; the result is [pixelArray]. *)
Definition respondToLoadedImage (img_width : Z) (data : list Z)
    (pixelArray : list Z) : list Z :=
  (foldl (keep_pixel img_width data) (pixelArray, 0%nat)
         ((λ k, 4 * k)%nat <$> seq 0 ((length data + 3) / 4))).1.

(** The loop of [respondToMouseClick]: [pixels] holds column and row offsets
    in turn.  A last offset without a partner gives the row
    [clickRow + undefined], which is NaN and fails [isValidCell]: nothing is
    written for it. *)
Fixpoint stamp (g : Grid) (clickRow clickCol : Z) (pixels : list Z) : Grid :=
  match pixels with
  | x :: y :: rest =>
      stamp (setCell g (clickRow + y) (clickCol + x) LIVE_CELL)
            clickRow clickCol rest
  | _ => g
  end.

(** [function respondToMouseClick(event)] on the grid: [x] and [y] are the
    click's coordinates relative to the canvas and [pixels] is the selected
    pattern. *)
Definition respondToMouseClick (g : Grid) (cellLength x y : Z)
    (pixels : list Z) : Grid :=
  let clickCol := x / cellLength in
  let clickRow := y / cellLength in
  stamp g clickRow clickCol pixels.

(** A flat list of offsets read as (column, row) pairs. *)
Fixpoint pairs (pixels : list Z) : list (Z * Z) :=
  match pixels with
  | x :: y :: rest => (x, y) :: pairs rest
  | _ => []
  end.
(** The pattern pixel [p], stamped at [(r, c)], lands on the buffer index
    [k] of [g]: its position passes the validity test and has that index. *)
Definition lands_on (g : Grid) (r c k : Z) (p : Z * Z) : bool :=
  isValidCell g (r + p.2) (c + p.1)
  && bool_decide ((r + p.2) * width g + (c + p.1) = k).

(** ** The page: frame rate and timer *)

(** [var MILLISECONDS_IN_ONE_SECOND = 1000; var MAX_FPS = 30; ...] *)
Definition MILLISECONDS_IN_ONE_SECOND : Z := 1000.
Definition MAX_FPS : Z := 30.
Definition MIN_FPS : Z := 1.
Definition FPS_INC : Z := 1.

(** The JavaScript number [dividend / divisor], kept as the division it comes
    from: the frame interval is not an integer in general. *)
Record Quotient : Set := mkQuotient { dividend : Z; divisor : Z }.

(** The timing variables of the page, [timer], [fps] and [frameInterval],
    and the browser's table of running intervals: [setInterval] enters the
    period under a handle that is not in use and returns the handle,
    [clearInterval] removes the entry of its handle.  The functions below
    read and assign these variables and no other. *)
Record Timing : Type := mkTiming {
  timer : option nat;
  fps : Z;
  frameInterval : Quotient;
  intervals : gmap nat Quotient;
  next_handle : nat
}.

Definition setInterval (period : Quotient) (t : Timing) : nat * Timing :=
  (next_handle t,
   mkTiming (timer t) (fps t) (frameInterval t)
            (<[next_handle t := period]> (intervals t)) (S (next_handle t))).

(** [clearInterval(timer)]; [None] is [null], for which nothing happens. *)
Definition clearInterval (handle : option nat) (t : Timing) : Timing :=
  match handle with
  | Some h =>
      mkTiming (timer t) (fps t) (frameInterval t)
               (delete h (intervals t)) (next_handle t)
  | None => t
  end.

Definition set_timer (handle : option nat) (t : Timing) : Timing :=
  mkTiming handle (fps t) (frameInterval t) (intervals t) (next_handle t).

Definition set_fps (f : Z) (interval : Quotient) (t : Timing) : Timing :=
  mkTiming (timer t) f interval (intervals t) (next_handle t).

(** [function startGameOfLife()] *)
Definition startGameOfLife (t : Timing) : Timing :=
  let t1 := if timer t is Some _ then clearInterval (timer t) t else t in
  let '(handle, t2) := setInterval (frameInterval t1) t1 in
  set_timer (Some handle) t2.

(** [function pauseGameOfLife()] *)
Definition pauseGameOfLife (t : Timing) : Timing :=
  set_timer None (clearInterval (timer t) t).

(** The [onclick] handler of the play/pause button. *)
Definition playPause (t : Timing) : Timing :=
  if timer t is None then startGameOfLife t else pauseGameOfLife t.

(** [function decFPS()]; drawing a frame assigns no timing variable. *)
Definition decFPS (t : Timing) : Timing :=
  if MIN_FPS <? fps t then
    let f := fps t - FPS_INC in
    let t1 := set_fps f (mkQuotient 1000 f) t in
    if timer t1 is Some _ then startGameOfLife t1 else t1
  else t.

(** [function incFPS()] *)
Definition incFPS (t : Timing) : Timing :=
  if fps t <? MAX_FPS then
    let f := fps t + FPS_INC in
    let t1 := set_fps f (mkQuotient MILLISECONDS_IN_ONE_SECOND f) t in
    if timer t1 is Some _ then startGameOfLife t1 else t1
  else t.

(** The timing variables after [initGameOfLifeData()], on a freshly loaded
    page, where no interval runs yet. *)
Definition initGameOfLifeData : Timing :=
  let fps := MAX_FPS in
  mkTiming None fps (mkQuotient MILLISECONDS_IN_ONE_SECOND fps) ∅ 0.

(** What can happen on the page once [initGameOfLife] has installed the
    handlers: a press of one of the six buttons, a click on the canvas, the
    end of the loading of a pattern image, a tick of the interval. *)
Inductive Event : Set :=
  | PlayPauseButton | DecFPSButton | IncFPSButton
  | ResetButton | DecCellLengthButton | IncCellLengthButton
  | CanvasClick | ImageLoaded | IntervalFires.

(** The timing variables after the handler of an event has run.
    [resetGameOfLife], [decCellLength], [incCellLength],
    [respondToMouseClick], [respondToLoadedImage] and [stepGameOfLife], and
    the functions they call, assign none of [timer], [fps] and
    [frameInterval] and call neither [setInterval] nor [clearInterval]: the
    timing variables are after them what they were before, also when one of
    them ends by an exception. *)
Definition handle_event (e : Event) (t : Timing) : Timing :=
  match e with
  | PlayPauseButton => playPause t
  | DecFPSButton => decFPS t
  | IncFPSButton => incFPS t
  | ResetButton | DecCellLengthButton | IncCellLengthButton
  | CanvasClick | ImageLoaded | IntervalFires => t
  end.

(** The timing variables reached from [initGameOfLifeData] by a sequence of
    events. *)
Inductive timing_reachable : Timing → Prop :=
  | timing_init : timing_reachable initGameOfLifeData
  | timing_step e t :
      timing_reachable t → timing_reachable (handle_event e t).

(** What the timing variables satisfy at every moment. *)
Record timing_ok (t : Timing) : Prop := mkTimingOk {
  ok_fps : MIN_FPS ≤ fps t ≤ MAX_FPS;
  ok_frameInterval : frameInterval t = mkQuotient 1000 (fps t);
  ok_intervals :
    intervals t = if timer t is Some handle
                  then {[handle := frameInterval t]} else ∅
}.

(** ** Loops *)

Lemma for_each_app {S A} (body : S → A → option S) s l1 l2 :
  for_each body s (l1 ++ l2) = s' ← for_each body s l1; for_each body s' l2.
Proof.
  revert s. induction l1 as [|a l1 IH]; intros s; simpl; [done|].
  destruct (body s a) as [s1|]; simpl; [apply IH | done].
Qed.

Lemma for_each_invariant {S A} (P : S → Prop) (body : S → A → option S) l :
  (∀ s a s', P s → body s a = Some s' → P s') →
  ∀ s s', P s → for_each body s l = Some s' → P s'.
Proof.
  intros Hbody. induction l as [|a l IH]; intros s s' Hs Hrun; simpl in Hrun.
  - by simplify_eq.
  - destruct (body s a) as [s1|] eqn:E; simpl in Hrun; [|done].
    eapply IH; [|done]. by eapply Hbody.
Qed.

(** Two positions with in-range columns share an index only when equal. *)
Lemma index_inj (w i j i' j' : Z) :
  0 ≤ j < w → 0 ≤ j' < w → i * w + j = i' * w + j' → i = i' ∧ j = j'.
Proof. intros Hj Hj' Heq. assert (i = i') by nia. subst. lia. Qed.

Lemma index_in_range (w h i j : Z) :
  0 ≤ i < h → 0 ≤ j < w → 0 ≤ i * w + j < w * h.
Proof. nia. Qed.

Lemma index_row_mismatch (w i i' j : Z) :
  0 ≤ j < w → i ≠ i' → ¬ (0 ≤ i * w + j - i' * w < w).
Proof. nia. Qed.

Lemma index_outside (w h k i : Z) :
  ¬ (0 ≤ k < w * h) → 0 ≤ i < h → ¬ (0 ≤ k - i * w < w).
Proof. nia. Qed.

Lemma grid_index_range g k :
  grid_index g k → 0 ≤ k < width g * height g.
Proof. intros (i & j & [Hi Hj] & ->). by apply index_in_range. Qed.


(** ** The constructor *)

Lemma init_row_spec i js g :
  width (init_row g i js) = width g ∧
  height (init_row g i js) = height g ∧
  newborns (init_row g i js) = newborns g ∧
  (∀ k, cells (init_row g i js) !! k
        = if decide (k - i * width g ∈ js) then Some DEAD_CELL
          else cells g !! k) ∧
  (∀ k, next (init_row g i js) !! k
        = if decide (k - i * width g ∈ js) then Some DEAD_CELL
          else next g !! k) ∧
  (∀ k, cell_types (init_row g i js) !! k
        = if decide (k - i * width g ∈ js)
          then Some (_getCellType (width g) (height g) i (k - i * width g))
          else cell_types g !! k).
Proof.
  unfold init_row. revert g. induction js as [|j js IH]; intros g; simpl.
  - repeat split; intros k; rewrite decide_False; try done;
      apply not_elem_of_nil.
  - destruct (IH (init_cell g i j)) as (Hw & Hh & Hn & Hc & Hx & Ht).
    simpl in *. repeat split; try done; intros k.
    + rewrite Hc, lookup_insert.
      destruct (decide (k - i * width g ∈ js)) as [Hin|Hout].
      * rewrite decide_True; [done|by apply list_elem_of_further].
      * destruct (decide (i * width g + j = k)) as [<-|Hne].
        -- rewrite decide_True; [done|].
           replace (i * width g + j - i * width g) with j by lia.
           apply list_elem_of_here.
        -- rewrite decide_False; [done|].
           rewrite elem_of_cons. intros [?|?]; [lia|done].
    + rewrite Hx, lookup_insert.
      destruct (decide (k - i * width g ∈ js)) as [Hin|Hout].
      * rewrite decide_True; [done|by apply list_elem_of_further].
      * destruct (decide (i * width g + j = k)) as [<-|Hne].
        -- rewrite decide_True; [done|].
           replace (i * width g + j - i * width g) with j by lia.
           apply list_elem_of_here.
        -- rewrite decide_False; [done|].
           rewrite elem_of_cons. intros [?|?]; [lia|done].
    + rewrite Ht, lookup_insert.
      destruct (decide (k - i * width g ∈ js)) as [Hin|Hout].
      * rewrite decide_True; [done|by apply list_elem_of_further].
      * destruct (decide (i * width g + j = k)) as [<-|Hne].
        -- rewrite decide_True.
           ++ by replace (i * width g + j - i * width g) with j by lia.
           ++ replace (i * width g + j - i * width g) with j by lia.
              apply list_elem_of_here.
        -- rewrite decide_False; [done|].
           rewrite elem_of_cons. intros [?|?]; [lia|done].
Qed.

Lemma init_grid_spec js rows g :
  (∀ j, j ∈ js → 0 ≤ j < width g) →
  width (init_rows js g rows) = width g ∧
  height (init_rows js g rows) = height g ∧
  newborns (init_rows js g rows) = newborns g ∧
  (∀ i j, i ∈ rows → j ∈ js →
     cells (init_rows js g rows) !! (i * width g + j) = Some DEAD_CELL ∧
     next (init_rows js g rows) !! (i * width g + j) = Some DEAD_CELL ∧
     cell_types (init_rows js g rows) !! (i * width g + j)
     = Some (_getCellType (width g) (height g) i j)) ∧
  (∀ k, (∀ i, i ∈ rows → k - i * width g ∉ js) →
     cells (init_rows js g rows) !! k = cells g !! k ∧
     next (init_rows js g rows) !! k = next g !! k ∧
     cell_types (init_rows js g rows) !! k = cell_types g !! k).
Proof.
  unfold init_rows. revert g. induction rows as [|i0 rows IH]; intros g Hjs.
  - simpl. do 3 (split; [done|]). split; [|done].
    intros i j Hi. by apply elem_of_nil in Hi.
  - simpl.
    destruct (init_row_spec i0 js g) as (Hw0 & Hh0 & Hn0 & Hc0 & Hx0 & Ht0).
    destruct (IH (init_row g i0 js)) as (Hw & Hh & Hn & Hhit & Hmiss).
    { by rewrite Hw0. }
    fold (init_row g i0 js). simpl in *.
    rewrite Hw0, Hh0 in *. split; [congruence|]. split; [congruence|].
    split; [congruence|]. split.
    + intros i j Hi Hj.
      destruct (decide (i ∈ rows)) as [Hin|Hout]; [by apply Hhit|].
      apply elem_of_cons in Hi as [->|Hi]; [|done].
      destruct (Hmiss (i0 * width g + j)) as (-> & -> & ->).
      { intros i' Hi' Hin. apply Hjs in Hin. apply Hjs in Hj.
        revert Hin. apply index_row_mismatch; [done|]. by intros ->. }
      rewrite Hc0, Hx0, Ht0.
      replace (i0 * width g + j - i0 * width g) with j by lia.
      by rewrite !decide_True.
    + intros k Hk.
      destruct (Hmiss k) as (-> & -> & ->).
      { intros i Hi. apply Hk. by apply list_elem_of_further. }
      rewrite Hc0, Hx0, Ht0.
      rewrite !decide_False; [done|..]; apply Hk, list_elem_of_here.
Qed.

Lemma foldl_invariant {S A} (P : S → Prop) (f : S → A → S) l :
  (∀ s a, P s → P (f s a)) → ∀ s, P s → P (foldl f s l).
Proof.
  intros Hf. induction l as [|a l IH]; intros s Hs; simpl; [done|].
  apply IH, Hf, Hs.
Qed.

Lemma new_Grid_width w h : width (new_Grid w h) = w.
Proof.
  unfold new_Grid.
  destruct (init_grid_spec (seqZ 0 w) (seqZ 0 h) (mkGrid ∅ ∅ w h ∅ ∅))
    as (H & _); [|exact H].
  intros j Hj%elem_of_seqZ. simpl. lia.
Qed.

Lemma new_Grid_height w h : height (new_Grid w h) = h.
Proof.
  unfold new_Grid.
  destruct (init_grid_spec (seqZ 0 w) (seqZ 0 h) (mkGrid ∅ ∅ w h ∅ ∅))
    as (_ & H & _); [|exact H].
  intros j Hj%elem_of_seqZ. simpl. lia.
Qed.

Lemma new_Grid_in w h i j :
  0 ≤ i < h → 0 ≤ j < w →
  cells (new_Grid w h) !! (i * w + j) = Some DEAD_CELL ∧
  next (new_Grid w h) !! (i * w + j) = Some DEAD_CELL ∧
  cell_types (new_Grid w h) !! (i * w + j) = Some (_getCellType w h i j).
Proof.
  intros Hi Hj. unfold new_Grid.
  destruct (init_grid_spec (seqZ 0 w) (seqZ 0 h) (mkGrid ∅ ∅ w h ∅ ∅))
    as (_ & _ & _ & Hhit & _).
  { intros j' Hj'%elem_of_seqZ. simpl. lia. }
  apply (Hhit i j); apply elem_of_seqZ; lia.
Qed.

Lemma new_Grid_out w h k :
  ¬ (0 ≤ k < w * h) →
  cells (new_Grid w h) !! k = None ∧ next (new_Grid w h) !! k = None.
Proof.
  intros Hk. unfold new_Grid.
  destruct (init_grid_spec (seqZ 0 w) (seqZ 0 h) (mkGrid ∅ ∅ w h ∅ ∅))
    as (_ & _ & _ & _ & Hmiss).
  { intros j' Hj'%elem_of_seqZ. simpl. lia. }
  destruct (Hmiss k) as (-> & -> & _); [|done].
  intros i Hi%elem_of_seqZ. simpl. rewrite elem_of_seqZ.
  pose proof (index_outside w h k i Hk). lia.
Qed.

Lemma new_Grid_all_dead w h :
  all_dead (cells (new_Grid w h)) ∧ all_dead (next (new_Grid w h)).
Proof.
  unfold new_Grid.
  apply (foldl_invariant (λ g, all_dead (cells g) ∧ all_dead (next g))).
  - intros g i Hg.
    apply (foldl_invariant (λ g, all_dead (cells g) ∧ all_dead (next g)));
      [|done].
    intros g' j [Hc Hn]. split; simpl; by apply map_Forall_insert_2.
  - split; apply map_Forall_empty.
Qed.

Lemma all_dead_binary m : all_dead m → binary m.
Proof. intros H k v Hk. left. by apply (H k). Qed.

(** ** Well-formed grids *)

Lemma new_Grid_wf w h : Grid_wf (new_Grid w h).
Proof. unfold Grid_wf. by rewrite new_Grid_width, new_Grid_height. Qed.

Lemma determineCellType_wf g i j :
  Grid_wf g → in_grid g i j →
  determineCellType g i j = Some (_getCellType (width g) (height g) i j).
Proof.
  intros Hwf [Hi Hj]. unfold determineCellType. rewrite Hwf.
  by apply new_Grid_in.
Qed.

Lemma setCell_fields g row col v :
  width (setCell g row col v) = width g ∧
  height (setCell g row col v) = height g ∧
  next (setCell g row col v) = next g ∧
  newborns (setCell g row col v) = newborns g ∧
  cell_types (setCell g row col v) = cell_types g.
Proof. unfold setCell. by destruct (isValidCell g row col). Qed.

Lemma setCell_wf g row col v : Grid_wf g → Grid_wf (setCell g row col v).
Proof.
  unfold Grid_wf. destruct (setCell_fields g row col v) as (-> & -> & _ & _ & ->).
  done.
Qed.

(** ** What one pass of [update] computes *)

Lemma update_cell_wf g i j p cols :
  determineCellType g i j = Some (_getCellType (width g) (height g) i j) →
  pass_newborns p !! i = Some cols →
  update_cell g i p j
  = Some (mkPass (<[i * width g + j := nextCell g i j]> (pass_next p))
                 (if born g i j
                  then <[i := cols ++ [j]]> (pass_newborns p)
                  else pass_newborns p)).
Proof.
  intros Hty Hrow. unfold update_cell, calcLivingNeighbors. rewrite Hty. simpl.
  unfold nextCell, born, next_value, is_newborn, living.
  destruct (decide (getCell g i j = Some LIVE_CELL)).
  - by destruct (num_ltb _ 2 || num_gtb _ 3).
  - destruct (num_eqb _ 3); [|done]. by rewrite Hrow.
Qed.

Lemma update_cells_spec g i js p cols :
  (∀ j, j ∈ js →
     determineCellType g i j = Some (_getCellType (width g) (height g) i j)) →
  pass_newborns p !! i = Some cols →
  ∃ p', for_each (update_cell g i) p js = Some p' ∧
    (∀ k, pass_next p' !! k
          = if decide (k - i * width g ∈ js)
            then Some (nextCell g i (k - i * width g))
            else pass_next p !! k) ∧
    (∀ r, pass_newborns p' !! r
          = if decide (i = r)
            then Some (cols ++ filter (λ j, born g i j) js)
            else pass_newborns p !! r).
Proof.
  revert p cols.
  induction js as [|j js IH]; intros p cols Hty Hrow; cbn [for_each].
  - exists p. split; [done|]. split.
    + intros k. rewrite decide_False; [done|apply not_elem_of_nil].
    + intros r. case_decide; [subst r|done]. by rewrite app_nil_r.
  - rewrite (update_cell_wf g i j p cols)
      by (done || apply Hty, list_elem_of_here).
    simpl.
    match goal with
    | |- context [for_each _ ?q js] =>
        destruct (IH q (if born g i j then cols ++ [j] else cols))
          as (p' & -> & Hnext & Hborn)
    end.
    { intros j' Hj'. by apply Hty, list_elem_of_further. }
    { simpl. destruct (born g i j); [by rewrite lookup_insert_eq|done]. }
    exists p'. split; [done|]. split.
    + intros k. rewrite Hnext. simpl. rewrite lookup_insert.
      destruct (decide (k - i * width g ∈ js)) as [Hin|Hout].
      * rewrite decide_True; [done|by apply list_elem_of_further].
      * destruct (decide (i * width g + j = k)) as [<-|Hne].
        -- replace (i * width g + j - i * width g) with j by lia.
           rewrite decide_True; [done|apply list_elem_of_here].
        -- rewrite decide_False; [done|].
           rewrite elem_of_cons. intros [?|?]; [lia|done].
    + intros r. rewrite Hborn. simpl. rewrite filter_cons.
      destruct (decide (i = r)) as [<-|Hne].
      * destruct (born g i j); simpl; [|done]. by rewrite <- app_assoc.
      * destruct (born g i j); [|done]. by rewrite lookup_insert_ne.
Qed.

Lemma update_row_spec g i p :
  (∀ j, 0 ≤ j < width g →
     determineCellType g i j = Some (_getCellType (width g) (height g) i j)) →
  ∃ p', update_row g p i = Some p' ∧
    (∀ k, pass_next p' !! k
          = if decide (0 ≤ k - i * width g < width g)
            then Some (nextCell g i (k - i * width g))
            else pass_next p !! k) ∧
    (∀ r, pass_newborns p' !! r
          = if decide (i = r)
            then Some (filter (λ j, born g i j) (seqZ 0 (width g)))
            else pass_newborns p !! r).
Proof.
  intros Hty. unfold update_row.
  destruct (update_cells_spec g i (seqZ 0 (width g))
              (mkPass (pass_next p) (<[i := []]> (pass_newborns p))) [])
    as (p' & -> & Hn & Hb).
  { intros j Hj%elem_of_seqZ. apply Hty. lia. }
  { simpl. apply lookup_insert_eq. }
  exists p'. split; [done|]. split.
  - intros k. rewrite Hn. simpl.
    destruct (decide (0 ≤ k - i * width g < width g)).
    + rewrite decide_True; [done|apply elem_of_seqZ; lia].
    + rewrite decide_False; [done|rewrite elem_of_seqZ; lia].
  - intros r. rewrite Hb. simpl. case_decide; [done|].
    by rewrite lookup_insert_ne.
Qed.

Lemma update_rows_spec g rows p :
  (∀ i j, i ∈ rows → 0 ≤ j < width g →
     determineCellType g i j = Some (_getCellType (width g) (height g) i j)) →
  ∃ p', for_each (update_row g) p rows = Some p' ∧
    (∀ i j, i ∈ rows → 0 ≤ j < width g →
       pass_next p' !! (i * width g + j) = Some (nextCell g i j)) ∧
    (∀ k, (∀ i, i ∈ rows → ¬ (0 ≤ k - i * width g < width g)) →
       pass_next p' !! k = pass_next p !! k) ∧
    (∀ i, i ∈ rows →
       pass_newborns p' !! i
       = Some (filter (λ j, born g i j) (seqZ 0 (width g)))) ∧
    (∀ i, i ∉ rows → pass_newborns p' !! i = pass_newborns p !! i).
Proof.
  revert p. induction rows as [|i0 rows IH]; intros p Hty; cbn [for_each].
  - exists p. split; [done|]. split; [|split; [done|split; [|done]]].
    + intros i j Hi. by apply elem_of_nil in Hi.
    + intros i Hi. by apply elem_of_nil in Hi.
  - destruct (update_row_spec g i0 p) as (p1 & -> & Hn1 & Hb1).
    { intros j Hj. apply Hty; [apply list_elem_of_here|done]. }
    simpl.
    destruct (IH p1) as (p' & -> & Hhit & Hmiss & Hbhit & Hbmiss).
    { intros i j Hi Hj. apply Hty; [by apply list_elem_of_further|done]. }
    exists p'. split; [done|]. split; [|split; [|split]].
    + intros i j Hi Hj.
      destruct (decide (i ∈ rows)) as [Hin|Hout]; [by apply Hhit|].
      apply elem_of_cons in Hi as [->|Hi]; [|done].
      rewrite Hmiss, Hn1.
      * replace (i0 * width g + j - i0 * width g) with j by lia.
        by rewrite decide_True.
      * intros i' Hi'. apply index_row_mismatch; [done|]. by intros ->.
    + intros k Hk. rewrite Hmiss, Hn1.
      * rewrite decide_False; [done|]. apply Hk, list_elem_of_here.
      * intros i Hi. by apply Hk, list_elem_of_further.
    + intros i Hi.
      destruct (decide (i ∈ rows)) as [Hin|Hout]; [by apply Hbhit|].
      apply elem_of_cons in Hi as [->|Hi]; [|done].
      rewrite Hbmiss, Hb1 by done. by rewrite decide_True.
    + intros i Hi. apply not_elem_of_cons in Hi as [Hne Hi].
      rewrite Hbmiss, Hb1 by done. by rewrite decide_False.
Qed.

(** On a well-formed grid [update] returns, and [updates] describes what it
    leaves. *)
Lemma update_total g : Grid_wf g → ∃ g', update g = Some g' ∧ updates g g'.
Proof.
  intros Hwf. unfold update.
  destruct (update_rows_spec g (seqZ 0 (height g)) (mkPass (next g) ∅))
    as (p & -> & Hhit & Hmiss & Hbhit & Hbmiss).
  { intros i j Hi%elem_of_seqZ Hj. apply determineCellType_wf; [done|].
    split; lia. }
  eexists. split; [done|]. split; simpl; try done.
  - intros i j [Hi Hj]. apply Hhit; [apply elem_of_seqZ; lia|done].
  - intros k Hk. rewrite Hmiss; [done|].
    intros i Hi%elem_of_seqZ Hj. apply Hk.
    exists i, (k - i * width g). split; [split; lia|lia].
  - intros i. case_decide as Hi.
    + apply Hbhit, elem_of_seqZ. lia.
    + rewrite Hbmiss; [done|]. rewrite elem_of_seqZ. lia.
Qed.

Lemma update_updates g g' : Grid_wf g → update g = Some g' → updates g g'.
Proof.
  intros Hwf Hup. destruct (update_total g Hwf) as (g1 & Hup1 & Hupd).
  congruence.
Qed.

Lemma update_wf g g' : Grid_wf g → update g = Some g' → Grid_wf g'.
Proof.
  intros Hwf Hup. destruct (update_updates g g' Hwf Hup).
  unfold Grid_wf in *. congruence.
Qed.

Lemma reachable_wf g : reachable g → Grid_wf g.
Proof.
  induction 1 as [w h|g row col v _ IH|g g' _ IH Hup].
  - apply new_Grid_wf.
  - by apply setCell_wf.
  - by eapply update_wf.
Qed.

(** ** [isValidCell], [setCell] and [getCell] *)

Lemma isValidCell_spec g row col :
  isValidCell g row col = true
  ↔ col < width g ∧ row * width g + col < width g * height g - 1.
Proof.
  unfold isValidCell, _num_cells.
  rewrite andb_true_iff, !Z.ltb_lt. done.
Qed.

(** Every position of the grid but the last one passes the test. *)
Lemma isValidCell_in_grid g row col :
  in_grid g row col → ¬ (row = height g - 1 ∧ col = width g - 1) →
  isValidCell g row col = true.
Proof. intros [Hr Hc] Hlast. apply isValidCell_spec. nia. Qed.

(** The last position of the grid fails it. *)
Lemma isValidCell_last g :
  isValidCell g (height g - 1) (width g - 1) = false.
Proof.
  apply not_true_is_false. rewrite isValidCell_spec. lia.
Qed.

(** Positions at or beyond the bottom or right edge fail it when the column is
    not negative. *)
Lemma isValidCell_beyond g row col :
  0 ≤ col → height g ≤ row ∨ width g ≤ col → isValidCell g row col = false.
Proof.
  intros Hc Hout. apply not_true_is_false. rewrite isValidCell_spec. nia.
Qed.

(** Every position above the grid passes it, whatever its column. *)
Lemma isValidCell_negative_row g row col :
  0 < width g → 0 < height g → row < 0 → col < width g →
  isValidCell g row col = true.
Proof. intros Hw Hh Hr Hc. apply isValidCell_spec. nia. Qed.

Lemma setCell_beyond g row col v :
  0 ≤ col → height g ≤ row ∨ width g ≤ col → setCell g row col v = g.
Proof. intros Hc Hout. unfold setCell. by rewrite isValidCell_beyond. Qed.

Lemma setCell_cells g row col v k :
  cells (setCell g row col v) !! k
  = if isValidCell g row col && bool_decide (row * width g + col = k)
    then Some v else cells g !! k.
Proof.
  unfold setCell. destruct (isValidCell g row col); simpl; [|done].
  rewrite lookup_insert. case_decide; by case_bool_decide.
Qed.

Lemma getCell_in_grid g i j :
  in_grid g i j → ¬ (i = height g - 1 ∧ j = width g - 1) →
  getCell g i j = cells g !! (i * width g + j).
Proof. intros Hpos Hlast. unfold getCell. by rewrite isValidCell_in_grid. Qed.

Lemma getCell_last g : getCell g (height g - 1) (width g - 1) = Some (-1).
Proof. unfold getCell. by rewrite isValidCell_last. Qed.

Lemma getCell_corner g i j :
  i = height g - 1 → j = width g - 1 → getCell g i j = Some (-1).
Proof. intros -> ->. apply getCell_last. Qed.

(** ** Grids a program can hold *)

Lemma reachable_bounded g :
  reachable g → bounded g (cells g) ∧ bounded g (next g).
Proof.
  induction 1 as [w h|g row col v Hg [IHc IHn]|g g' Hg [IHc IHn] Hup].
  - unfold bounded. rewrite new_Grid_width, new_Grid_height.
    split; intros k Hk; apply new_Grid_out; lia.
  - unfold bounded.
    destruct (setCell_fields g row col v) as (-> & -> & -> & _).
    split; [|done]. intros k Hk. rewrite setCell_cells.
    destruct (isValidCell g row col) eqn:Hv; simpl; [|by apply IHc].
    apply isValidCell_spec in Hv. case_bool_decide; [lia|by apply IHc].
  - destruct (update_updates g g' (reachable_wf g Hg) Hup)
      as [Hw Hh _ Hnext _ Hout _].
    unfold bounded. rewrite Hw, Hh, Hnext. split; [|done].
    intros k Hk. rewrite Hout; [by apply IHn|].
    intros Hidx%grid_index_range. lia.
Qed.

(** ** The classification the constructor computes, region by region *)

Ltac decide_kind :=
  intros; unfold _getCellType;
  repeat (match goal with
          | |- context [?a =? ?b] => destruct (Z.eqb_spec a b); try lia
          end; cbn [andb]);
  reflexivity.

Section classification.
Context (w h i j : Z).

Lemma kind_top_left : i = 0 → j = 0 → _getCellType w h i j = TOP_LEFT.
Proof. decide_kind. Qed.

Lemma kind_top_right :
  i = 0 → j = w - 1 → 0 < j → _getCellType w h i j = TOP_RIGHT.
Proof. decide_kind. Qed.

Lemma kind_top :
  i = 0 → 0 < j → j ≠ w - 1 → _getCellType w h i j = TOP.
Proof. decide_kind. Qed.

Lemma kind_bottom_left :
  i = h - 1 → 0 < i → j = 0 → _getCellType w h i j = BOTTOM_LEFT.
Proof. decide_kind. Qed.

Lemma kind_left :
  0 < i → i ≠ h - 1 → j = 0 → _getCellType w h i j = LEFT.
Proof. decide_kind. Qed.

(** On the bottom row the column is compared with [height - 1]. *)
Lemma kind_bottom_row_diagonal :
  i = h - 1 → 0 < i → j = h - 1 → _getCellType w h i j = BOTTOM_RIGHT.
Proof. decide_kind. Qed.

(** The rest of the bottom row is labelled RIGHT. *)
Lemma kind_bottom_row :
  i = h - 1 → 0 < i → 0 < j → j ≠ h - 1 → _getCellType w h i j = RIGHT.
Proof. decide_kind. Qed.

(** The right column between the corners is labelled BOTTOM. *)
Lemma kind_right_column :
  0 < i → i ≠ h - 1 → j = w - 1 → 0 < j → _getCellType w h i j = BOTTOM.
Proof. decide_kind. Qed.

Lemma kind_center :
  0 < i → i ≠ h - 1 → 0 < j → j ≠ w - 1 → _getCellType w h i j = CENTER.
Proof. decide_kind. Qed.
End classification.

(** ** The neighbour sum *)

Lemma countLiving_neighbors g kind i j :
  countLiving g kind i j
  = foldl (λ n p, num_add n (cells g !! (p.1 * width g + p.2))) (Int 0)
          (neighbors kind i j).
Proof. unfold countLiving, neighbors. by rewrite foldl_fmap. Qed.

(** When every index the loop reads is the index of a grid position of known
    state, the sum is the total of these states. *)
Lemma countLiving_resolved g (st : Z → Z → Z) kind i j qs :
  (∀ r c, in_grid g r c → cells g !! (r * width g + c) = Some (st r c)) →
  Forall2 (λ p q, p.1 * width g + p.2 = q.1 * width g + q.2
                  ∧ in_grid g q.1 q.2) (neighbors kind i j) qs →
  countLiving g kind i j = Int (total st qs 0).
Proof.
  intros Hst Hqs. rewrite countLiving_neighbors. unfold total.
  generalize 0. induction Hqs as [|p q ps qs [Hpq Hq] _ IH]; intros a; [done|].
  simpl. rewrite Hpq, Hst by done. apply IH.
Qed.

(** When the loop reads an index without an entry, the sum is NaN. *)
Lemma countLiving_absent g kind i j p :
  p ∈ neighbors kind i j → cells g !! (p.1 * width g + p.2) = None →
  countLiving g kind i j = NaN.
Proof.
  intros Hp Hnone. rewrite countLiving_neighbors.
  assert (∀ ps, foldl (λ n p, num_add n (cells g !! (p.1 * width g + p.2)))
                      NaN ps = NaN) as Hnan.
  { induction ps as [|p' ps IH]; [done|]. simpl. apply IH. }
  apply list_elem_of_split in Hp as (ps1 & ps2 & ->).
  rewrite foldl_app. simpl. rewrite Hnone.
  by destruct (foldl _ _ ps1); simpl; rewrite Hnan.
Qed.

Lemma neighbors_unfold kind i j :
  neighbors kind i j =
  match kind with
  | TOP_LEFT => [(i + 0, j + 1); (i + 1, j + 1); (i + 1, j + 0)]
  | TOP_RIGHT => [(i + 0, j + -1); (i + 1, j + -1); (i + 1, j + 0)]
  | BOTTOM_LEFT => [(i + 0, j + 1); (i + -1, j + 1); (i + -1, j + 0)]
  | BOTTOM_RIGHT => [(i + 0, j + -1); (i + -1, j + -1); (i + -1, j + 0)]
  | TOP => [(i + 0, j + -1); (i + 1, j + -1); (i + 1, j + 0);
            (i + 1, j + 1); (i + 0, j + 1)]
  | BOTTOM => [(i + 0, j + -1); (i + -1, j + -1); (i + -1, j + 0);
               (i + -1, j + 1); (i + 0, j + 1)]
  | LEFT => [(i + -1, j + 0); (i + -1, j + 1); (i + 0, j + 1);
             (i + 1, j + 1); (i + 1, j + 0)]
  | RIGHT => [(i + -1, j + 0); (i + -1, j + -1); (i + 0, j + -1);
              (i + 1, j + -1); (i + 1, j + 0)]
  | CENTER => [(i + -1, j + -1); (i + 0, j + -1); (i + 1, j + -1);
               (i + 1, j + 0); (i + 1, j + 1); (i + 0, j + 1);
               (i + -1, j + 1); (i + -1, j + 0)]
  end.
Proof. by destruct kind. Qed.

(** ** What the loop sums, region by region

    [st] gives the state of every position of the grid; the grid has at least
    two rows and two columns and no entry at or beyond [width * height]. *)

Ltac resolve_neighbors kind_lemma :=
  intros; unfold living; rewrite kind_lemma by lia;
  apply countLiving_resolved; [assumption|];
  rewrite neighbors_unfold;
  repeat (apply Forall2_cons;
          split; [split; [simpl; lia|split; simpl; lia]|]);
  apply Forall2_nil_2.

Section regions.
Context (g : Grid) (st : Z → Z → Z).
Hypothesis Hst : ∀ r c, in_grid g r c →
  cells g !! (r * width g + c) = Some (st r c).
Hypothesis Hbounded : bounded g (cells g).
Hypothesis Hw : 1 < width g.
Hypothesis Hh : 1 < height g.

Lemma living_top_left i j :
  i = 0 → j = 0 →
  living g i j = Int (total st [(i, j + 1); (i + 1, j + 1); (i + 1, j)] 0).
Proof. resolve_neighbors kind_top_left. Qed.

Lemma living_top_right i j :
  i = 0 → j = width g - 1 →
  living g i j = Int (total st [(i, j - 1); (i + 1, j - 1); (i + 1, j)] 0).
Proof. resolve_neighbors kind_top_right. Qed.

Lemma living_top i j :
  i = 0 → 0 < j < width g - 1 →
  living g i j
  = Int (total st [(i, j - 1); (i + 1, j - 1); (i + 1, j);
                   (i + 1, j + 1); (i, j + 1)] 0).
Proof. resolve_neighbors kind_top. Qed.

Lemma living_bottom_left i j :
  i = height g - 1 → j = 0 →
  living g i j = Int (total st [(i, j + 1); (i - 1, j + 1); (i - 1, j)] 0).
Proof. resolve_neighbors kind_bottom_left. Qed.

Lemma living_left i j :
  0 < i < height g - 1 → j = 0 →
  living g i j
  = Int (total st [(i - 1, j); (i - 1, j + 1); (i, j + 1);
                   (i + 1, j + 1); (i + 1, j)] 0).
Proof. resolve_neighbors kind_left. Qed.

Lemma living_center i j :
  0 < i < height g - 1 → 0 < j < width g - 1 →
  living g i j
  = Int (total st [(i - 1, j - 1); (i, j - 1); (i + 1, j - 1); (i + 1, j);
                   (i + 1, j + 1); (i, j + 1); (i - 1, j + 1); (i - 1, j)]
               0).
Proof. resolve_neighbors kind_center. Qed.

(** The bottom-row position whose column is [height - 1] is treated as the
    bottom-right corner, wherever it lies on the row. *)
Lemma living_bottom_row_diagonal i j :
  i = height g - 1 → j = height g - 1 → j < width g →
  living g i j = Int (total st [(i, j - 1); (i - 1, j - 1); (i - 1, j)] 0).
Proof. resolve_neighbors kind_bottom_row_diagonal. Qed.

(** Between the corners the right column is summed with the BOTTOM offsets:
    the two offsets to the right wrap around to column 0 of this row and of
    the next, and the two neighbours below on the left and straight below
    are not read. *)
Lemma living_right_column i j :
  0 < i < height g - 1 → j = width g - 1 →
  living g i j
  = Int (total st [(i, j - 1); (i - 1, j - 1); (i - 1, j);
                   (i, 0); (i + 1, 0)] 0).
Proof. resolve_neighbors kind_right_column. Qed.

(** The rest of the bottom row is summed with the RIGHT offsets, which reach
    into the row below the grid: the sum is NaN. *)
Lemma living_bottom_row i j :
  i = height g - 1 → 0 < j < width g → j ≠ height g - 1 →
  living g i j = NaN.
Proof.
  intros Hi Hj Hne. unfold living. rewrite kind_bottom_row by lia.
  apply (countLiving_absent g RIGHT i j (i + 1, j + -1)).
  - rewrite neighbors_unfold. do 3 apply list_elem_of_further.
    apply list_elem_of_here.
  - apply Hbounded. simpl. nia.
Qed.
End regions.

(** ** Where [update] does follow the standard rule *)

Lemma next_value_spec_rule v n :
  next_value (Some v) (Int n) = spec_rule v n.
Proof.
  unfold next_value, spec_rule, num_ltb, num_gtb, num_eqb.
  destruct (Z.eqb_spec v LIVE_CELL) as [->|Hne].
  - by rewrite decide_True.
  - rewrite decide_False; [done|congruence].
Qed.

Lemma length_filter_sum {A} (f : A → bool) (l : list A) (a : Z) :
  a + Z.of_nat (length (filter (λ d, f d) l))
  = foldl (λ a d, a + (if f d then 1 else 0)) a l.
Proof.
  revert a. induction l as [|d l IH]; intros a; simpl; [lia|].
  rewrite <- IH, filter_cons. destruct (f d); simpl; lia.
Qed.

Section standard_rule.
Context (g : Grid) (st : Z → Z → Z).
Hypothesis Hst : ∀ r c, in_grid g r c →
  cells g !! (r * width g + c) = Some (st r c).
Hypothesis Hbinary : ∀ r c, st r c = DEAD_CELL ∨ st r c = LIVE_CELL.
Hypothesis Hw : 1 < width g.
Hypothesis Hh : 1 < height g.

(** What a surrounding position contributes to the specification's count. *)
Lemma live_inside r c :
  in_grid g r c →
  (if in_gridb g r c
      && bool_decide (cells g !! (r * width g + c) = Some LIVE_CELL)
   then 1 else 0) = st r c.
Proof.
  intros Hpos. rewrite Hst by done. destruct Hpos as [Hr Hc].
  unfold in_gridb.
  rewrite (proj2 (Z.leb_le 0 r)), (proj2 (Z.ltb_lt r _)),
    (proj2 (Z.leb_le 0 c)), (proj2 (Z.ltb_lt c _)) by lia.
  simpl. destruct (Hbinary r c) as [->| ->]; by case_bool_decide.
Qed.

Lemma live_outside r c :
  ¬ in_grid g r c →
  (if in_gridb g r c
      && bool_decide (cells g !! (r * width g + c) = Some LIVE_CELL)
   then 1 else 0) = 0.
Proof.
  intros Hpos. destruct (in_gridb g r c) eqn:Hin; [|done].
  exfalso. apply Hpos. unfold in_gridb in Hin.
  rewrite !andb_true_iff, !Z.leb_le, !Z.ltb_lt in Hin. unfold in_grid. lia.
Qed.

Ltac count_around :=
  unfold spec_liveNeighbors;
  rewrite <- (Z.add_0_l (Z.of_nat _)), length_filter_sum;
  cbn [foldl fst snd];
  repeat first [ rewrite live_inside by (unfold in_grid; lia)
               | rewrite live_outside by (unfold in_grid; lia) ];
  rewrite ?Z.add_0_r;
  repeat match goal with
         | |- context [?x + -1] => change (x + -1) with (x - 1)
         end;
  lia.

(** Away from the bottom row and the right column the sum the code computes
    is the number of live neighbours. *)
Lemma living_is_spec_count i j :
  0 ≤ i < height g - 1 → 0 ≤ j < width g - 1 →
  living g i j = Int (spec_liveNeighbors g i j).
Proof.
  intros Hi Hj.
  destruct (decide (i = 0)) as [Hi0|Hi0];
    destruct (decide (j = 0)) as [Hj0|Hj0].
  - rewrite (living_top_left g st) by (done || lia). f_equal.
    unfold total. cbn [foldl fst snd]. count_around.
  - rewrite (living_top g st) by (done || lia). f_equal.
    unfold total. cbn [foldl fst snd]. count_around.
  - rewrite (living_left g st) by (done || lia). f_equal.
    unfold total. cbn [foldl fst snd]. count_around.
  - rewrite (living_center g st) by (done || lia). f_equal.
    unfold total. cbn [foldl fst snd]. count_around.
Qed.

(** There [update] stores what the standard rule prescribes. *)
Lemma update_follows_rule_off_far_edges g' i j :
  Grid_wf g → update g = Some g' →
  0 ≤ i < height g - 1 → 0 ≤ j < width g - 1 →
  cells g' !! (i * width g + j)
  = Some (spec_rule (st i j) (spec_liveNeighbors g i j)).
Proof.
  intros Hwf Hup Hi Hj.
  destruct (update_updates g g' Hwf Hup) as [_ _ _ _ Hin _ _].
  rewrite Hin by (unfold in_grid; lia). f_equal. unfold nextCell.
  rewrite getCell_in_grid, Hst by (unfold in_grid; lia).
  by rewrite living_is_spec_count, next_value_spec_rule.
Qed.
End standard_rule.

(** * The claims *)

(** C1 (defects of C2 and C3 seen through [update]).  On the 5 by 5 grid whose
    only live cell is the bottom-row position (4, 2), that cell has no live
    neighbour, so the standard rule makes it DEAD; the neighbour sum the code
    computes is NaN, both comparisons with it are false, and [update] leaves
    the cell LIVE. *)
Theorem update_keeps_isolated_bottom_cell_alive :
  let g := setCell (new_Grid 5 5) 4 2 LIVE_CELL in
  getCell g 4 2 = Some LIVE_CELL ∧
  spec_liveNeighbors g 4 2 = 0 ∧
  spec_rule LIVE_CELL 0 = DEAD_CELL ∧
  calcLivingNeighbors g 4 2 = Some NaN ∧
  ∃ g', update g = Some g' ∧ getCell g' 4 2 = Some LIVE_CELL.
Proof.
  repeat split; try (vm_compute; reflexivity).
  eexists. split; vm_compute; reflexivity.
Qed.

(** C2 (defect in [isValidCell]).  On the 5 by 5 grid the test rejects the
    bottom-right position (4, 4), which lies inside the grid, and accepts the
    positions (-1, 0) and (1, -1), which have a negative row or column: the
    comparison is against [width * height - 1] instead of [width * height],
    and nothing checks the signs. *)
Theorem isValidCell_misjudges_corner_and_negatives :
  in_grid (new_Grid 5 5) 4 4 ∧
  isValidCell (new_Grid 5 5) 4 4 = false ∧
  isValidCell (new_Grid 5 5) (-1) 0 = true ∧
  isValidCell (new_Grid 5 5) 1 (-1) = true.
Proof. repeat split; vm_compute; congruence. Qed.

(** C3 (defect in [_getCellType]).  On the 5 by 5 grid the bottom-row position
    (4, 2) is stored as RIGHT and the right-column position (2, 4) as BOTTOM:
    the two edge labels are exchanged.  On the grid of width 6 and height 4
    the bottom-right corner (3, 5) is stored as RIGHT and the non-corner
    position (3, 3) as BOTTOM_RIGHT: the corner test compares the column with
    [height - 1]. *)
Theorem stored_cell_types_mislabel_edges :
  determineCellType (new_Grid 5 5) 4 2 = Some RIGHT ∧
  determineCellType (new_Grid 5 5) 2 4 = Some BOTTOM ∧
  determineCellType (new_Grid 6 4) 3 5 = Some RIGHT ∧
  determineCellType (new_Grid 6 4) 3 3 = Some BOTTOM_RIGHT.
Proof. repeat split; vm_compute; reflexivity. Qed.

(** C4 (same defect as C3).  On the 5 by 5 grid the neighbour loop at the
    bottom-row position (4, 2) examines the positions (5, 1) and (5, 2) of
    row 5, which is outside the grid, and reads the buffer at index 27, where
    it has no entry; at the right-column position (2, 4) it examines the
    positions (1, 5) and (2, 5) of column 5, which is outside the grid. *)
Theorem neighbor_offsets_leave_the_grid :
  (kind ← determineCellType (new_Grid 5 5) 4 2; Some (neighbors kind 4 2))
  = Some [(3, 2); (3, 1); (4, 1); (5, 1); (5, 2)] ∧
  in_gridb (new_Grid 5 5) 5 2 = false ∧
  cells (new_Grid 5 5) !! (5 * 5 + 2) = None ∧
  (kind ← determineCellType (new_Grid 5 5) 2 4; Some (neighbors kind 2 4))
  = Some [(2, 3); (1, 3); (1, 4); (1, 5); (2, 5)] ∧
  in_gridb (new_Grid 5 5) 1 5 = false.
Proof. repeat split; vm_compute; reflexivity. Qed.

(** ** [update] reads the current buffer only *)








(** ** The blinker *)

Lemma horizontal_off r c :
  r ≠ 2 ∨ c < 1 ∨ 3 < c → state_of horizontal r c = DEAD_CELL.
Proof.
  intros H. unfold state_of, horizontal, live_in. cbn [existsb fst snd].
  repeat (match goal with
          | |- context [?a =? ?b] => destruct (Z.eqb_spec a b); try lia
          end; cbn [andb orb]).
  all: done.
Qed.

Lemma vertical_off r c :
  c ≠ 2 ∨ r < 1 ∨ 3 < r → state_of vertical r c = DEAD_CELL.
Proof.
  intros H. unfold state_of, vertical, live_in. cbn [existsb fst snd].
  repeat (match goal with
          | |- context [?a =? ?b] => destruct (Z.eqb_spec a b); try lia
          end; cbn [andb orb]).
  all: done.
Qed.

(** Every state in sight is DEAD_CELL. *)
Ltac all_off := rewrite ?horizontal_off, ?vertical_off by lia; reflexivity.

(** Case analysis on a coordinate: one of 0 to 4, or at least 5. *)
Ltac split_coord i :=
  let H := fresh "Hfar" in
  assert (i = 0 ∨ i = 1 ∨ i = 2 ∨ i = 3 ∨ i = 4 ∨ 5 ≤ i) as H by lia;
  destruct H as [->|[->|[->|[->|[->|H]]]]].

Ltac settle_cell i j :=
  first
    [ all_off
    | split_coord i;
      first
        [ exfalso; lia
        | all_off
        | split_coord j;
          first [ exfalso; lia | vm_compute; reflexivity | all_off ] ] ].

(** One generation of the blinker, cell by cell: what [update] stores at a
    position of a grid holding one phase is the state of the other phase. *)
Lemma blinker_flip g ps ps' :
  (ps = horizontal ∧ ps' = vertical) ∨ (ps = vertical ∧ ps' = horizontal) →
  bounded g (cells g) → 5 ≤ width g → 5 ≤ height g →
  live_exactly_at g ps →
  ∀ i j, in_grid g i j → nextCell g i j = state_of ps' i j.
Proof.
  intros Hps Hb Hw Hh Hlive i j [Hi Hj]. unfold nextCell.
  unfold live_exactly_at in Hlive.
  assert (1 < width g) as Hw1 by lia. assert (1 < height g) as Hh1 by lia.
  destruct (decide (i = height g - 1 ∧ j = width g - 1)) as [[Hi1 Hj1]|Hlast].
  { rewrite getCell_corner by done.
    destruct (decide (j = height g - 1)).
    - rewrite (living_bottom_row_diagonal g (state_of ps)) by (done || lia).
      unfold total; cbn [foldl fst snd].
      destruct Hps as [[-> ->]|[-> ->]]; all_off.
    - rewrite (living_bottom_row g) by (done || lia).
      destruct Hps as [[-> ->]|[-> ->]]; all_off. }
  rewrite getCell_in_grid, Hlive by done.
  destruct (decide (i = 0)) as [Hi0|Hi0];
    [|destruct (decide (i = height g - 1)) as [Hi1|Hi1]];
    (destruct (decide (j = 0)) as [Hj0|Hj0];
     [|destruct (decide (j = width g - 1)) as [Hj1|Hj1]]).
  - rewrite (living_top_left g (state_of ps)) by (done || lia).
    unfold total; cbn [foldl fst snd].
    destruct Hps as [[-> ->]|[-> ->]]; settle_cell i j.
  - rewrite (living_top_right g (state_of ps)) by (done || lia).
    unfold total; cbn [foldl fst snd].
    destruct Hps as [[-> ->]|[-> ->]]; settle_cell i j.
  - rewrite (living_top g (state_of ps)) by (done || lia).
    unfold total; cbn [foldl fst snd].
    destruct Hps as [[-> ->]|[-> ->]]; settle_cell i j.
  - rewrite (living_bottom_left g (state_of ps)) by (done || lia).
    unfold total; cbn [foldl fst snd].
    destruct Hps as [[-> ->]|[-> ->]]; settle_cell i j.
  - lia.
  - destruct (decide (j = height g - 1)).
    + rewrite (living_bottom_row_diagonal g (state_of ps)) by (done || lia).
      unfold total; cbn [foldl fst snd].
      destruct Hps as [[-> ->]|[-> ->]]; settle_cell i j.
    + rewrite (living_bottom_row g) by (done || lia).
      destruct Hps as [[-> ->]|[-> ->]]; settle_cell i j.
  - rewrite (living_left g (state_of ps)) by (done || lia).
    unfold total; cbn [foldl fst snd].
    destruct Hps as [[-> ->]|[-> ->]]; settle_cell i j.
  - rewrite (living_right_column g (state_of ps)) by (done || lia).
    unfold total; cbn [foldl fst snd].
    destruct Hps as [[-> ->]|[-> ->]]; settle_cell i j.
  - rewrite (living_center g (state_of ps)) by (done || lia).
    unfold total; cbn [foldl fst snd].
    destruct Hps as [[-> ->]|[-> ->]]; settle_cell i j.
Qed.

Lemma blinker_generation g g' ps ps' :
  (ps = horizontal ∧ ps' = vertical) ∨ (ps = vertical ∧ ps' = horizontal) →
  reachable g → 5 ≤ width g → 5 ≤ height g → live_exactly_at g ps →
  update g = Some g' → live_exactly_at g' ps'.
Proof.
  intros Hps Hg Hw Hh Hlive Hup.
  destruct (update_updates g g' (reachable_wf g Hg) Hup)
    as [Hw' Hh' _ _ Hin _ _].
  intros row col Hpos. unfold in_grid in Hpos. rewrite Hw', Hh' in *.
  rewrite Hin by done. f_equal.
  apply (blinker_flip g ps ps'); try done. by apply reachable_bounded.
Qed.

(** C6.  On a grid at least 5 wide and 5 high whose live cells are exactly
    (2,1), (2,2) and (2,3), [update] returns a grid whose live cells are
    exactly (1,2), (2,2) and (3,2), and a second [update] returns a grid whose
    live cells are again exactly (2,1), (2,2) and (2,3). *)
Theorem blinker_oscillates g :
  reachable g → 5 ≤ width g → 5 ≤ height g →
  live_exactly_at g horizontal →
  ∃ g1 g2,
    update g = Some g1 ∧ live_exactly_at g1 vertical ∧
    update g1 = Some g2 ∧ live_exactly_at g2 horizontal.
Proof.
  intros Hg Hw Hh Hlive.
  destruct (update_total g (reachable_wf g Hg)) as (g1 & Hup1 & Hupd1).
  assert (reachable g1) as Hg1 by (by eapply reach_update).
  destruct (update_total g1 (reachable_wf g1 Hg1)) as (g2 & Hup2 & _).
  exists g1, g2.
  assert (live_exactly_at g1 vertical) as Hlive1.
  { apply (blinker_generation g g1 horizontal vertical); auto. }
  do 2 (split; [done|]). split; [done|].
  destruct Hupd1 as [Hw1 Hh1 _ _ _ _ _].
  apply (blinker_generation g1 g2 vertical horizontal); auto; lia.
Qed.

Lemma blinker_oscillates_witness :
  ∃ g1 g2,
    update blinker_grid = Some g1 ∧ live_exactly_at g1 vertical ∧
    update g1 = Some g2 ∧ live_exactly_at g2 horizontal.
Proof.
  apply (blinker_oscillates blinker_grid).
  - do 3 apply reach_setCell. apply reach_new.
  - vm_compute. congruence.
  - vm_compute. congruence.
  - intros row col [Hrow Hcol].
    change (height blinker_grid) with 5 in Hrow.
    change (width blinker_grid) with 5 in *.
    assert (row = 0 ∨ row = 1 ∨ row = 2 ∨ row = 3 ∨ row = 4) as Hr by lia.
    assert (col = 0 ∨ col = 1 ∨ col = 2 ∨ col = 3 ∨ col = 4) as Hc by lia.
    destruct Hr as [->|[->|[->|[->| ->]]]];
      destruct Hc as [->|[->|[->|[->| ->]]]]; vm_compute; reflexivity.
Defined.

(** C7 (same defect as C2).  On the 5 by 5 grid, [setCell(1, -1, LIVE_CELL)]
    names a position with a negative column, passes the validity test and
    overwrites the buffer entry 4, the cell of position (0, 4);
    [setCell(-1, 0, LIVE_CELL)] adds an entry at the negative key -5. *)
Theorem setCell_writes_for_negative_positions :
  ¬ in_grid (new_Grid 5 5) 1 (-1) ∧
  cells (new_Grid 5 5) !! 4 = Some DEAD_CELL ∧
  cells (setCell (new_Grid 5 5) 1 (-1) LIVE_CELL) !! 4 = Some LIVE_CELL ∧
  getCell (setCell (new_Grid 5 5) 1 (-1) LIVE_CELL) 0 4 = Some LIVE_CELL ∧
  cells (new_Grid 5 5) !! (-5) = None ∧
  cells (setCell (new_Grid 5 5) (-1) 0 LIVE_CELL) !! (-5) = Some LIVE_CELL.
Proof.
  split; [intros [_ [? _]]; lia|]. repeat split; vm_compute; reflexivity.
Qed.

(** C8 (same defect as C2).  On the 5 by 5 grid, [getCell(4, 4)] returns the
    sentinel -1 for the bottom-right position, which lies inside the grid and
    whose buffer entry is DEAD_CELL; it still returns -1 when the entry is
    LIVE_CELL, after an update gave birth to that cell.  [getCell(1, -1)]
    returns the state DEAD_CELL of another cell instead of the sentinel. *)
Theorem getCell_misreports_corner_and_negatives :
  let g := setCell (setCell (setCell (new_Grid 5 5) 3 3 LIVE_CELL)
                            3 4 LIVE_CELL) 4 3 LIVE_CELL in
  in_grid (new_Grid 5 5) 4 4 ∧
  cells (new_Grid 5 5) !! (4 * 5 + 4) = Some DEAD_CELL ∧
  getCell (new_Grid 5 5) 4 4 = Some (-1) ∧
  (∃ g', update g = Some g' ∧
         cells g' !! (4 * 5 + 4) = Some LIVE_CELL ∧
         getCell g' 4 4 = Some (-1)) ∧
  ¬ in_grid (new_Grid 5 5) 1 (-1) ∧
  getCell (new_Grid 5 5) 1 (-1) = Some DEAD_CELL.
Proof.
  intros g. split; [|split; [|split; [|split; [|split]]]].
  - vm_compute. repeat split; congruence.
  - vm_compute. reflexivity.
  - vm_compute. reflexivity.
  - eexists. split; [vm_compute; reflexivity|].
    split; vm_compute; reflexivity.
  - intros [_ [? _]]. lia.
  - vm_compute. reflexivity.
Qed.

(** ** Cell states stay binary *)

Lemma update_cell_binary g i p j p' :
  binary (pass_next p) → update_cell g i p j = Some p' →
  binary (pass_next p').
Proof.
  intros Hp. unfold update_cell.
  destruct (calcLivingNeighbors g i j) as [n|]; simpl; [|done].
  destruct (pass_newborns p !! i); simpl;
    repeat case_match; intros [= <-]; simpl;
    apply map_Forall_insert_2; auto.
Qed.

Lemma update_row_binary g p i p' :
  binary (pass_next p) → update_row g p i = Some p' → binary (pass_next p').
Proof.
  intros Hp. unfold update_row.
  apply (for_each_invariant (λ p, binary (pass_next p))); [|done].
  intros s a s'. apply update_cell_binary.
Qed.

Lemma update_binary g g' :
  update g = Some g' → binary (cells g) → binary (next g) →
  binary (cells g') ∧ binary (next g').
Proof.
  unfold update. intros Hup Hc Hn.
  destruct (for_each _ _ _) as [p|] eqn:Hloop; simpl in Hup; [|done].
  injection Hup as <-. split; simpl; [|done].
  revert Hloop. apply (for_each_invariant (λ p, binary (pass_next p))); [|done].
  intros s a s'. apply update_row_binary.
Qed.

Lemma new_Grid_binary w h : binary_grid (new_Grid w h).
Proof.
  destruct (new_Grid_all_dead w h) as [Hc Hn].
  split; (split; [by apply all_dead_binary|]); intros row col [Hr Hc'];
    rewrite new_Grid_width, new_Grid_height in *;
    destruct (new_Grid_in w h row col) as (Hc1 & Hn1 & _); try done;
    by eexists.
Qed.

Lemma setCell_binary g row col v :
  v = DEAD_CELL ∨ v = LIVE_CELL → binary_grid g →
  binary_grid (setCell g row col v).
Proof.
  intros Hv [[Hc Hcf] Hn]. unfold binary_grid, holds_states, in_grid.
  destruct (setCell_fields g row col v) as (-> & -> & -> & _).
  split; [|done]. split.
  - unfold setCell. destruct (isValidCell g row col); [|done].
    simpl. by apply map_Forall_insert_2.
  - intros r c Hpos. rewrite setCell_cells.
    destruct (_ && _); [by eexists|by apply Hcf].
Qed.

Lemma update_binary_grid g :
  Grid_wf g → binary_grid g → ∃ g', update g = Some g' ∧ binary_grid g'.
Proof.
  intros Hwf [[Hc Hcf] [Hn Hnf]].
  destruct (update_total g Hwf) as (g' & Hup & Hupd).
  exists g'. split; [done|].
  destruct (update_binary g g' Hup Hc Hn) as [Hc' Hn'].
  destruct Hupd as [Hw Hh _ Hnext Hin _ _].
  unfold binary_grid, holds_states, in_grid. rewrite Hw, Hh, Hnext.
  split; [|done]. split; [done|].
  intros row col Hpos. rewrite Hin by done. by eexists.
Qed.

(** C9.  Every position of the grid has an entry in the current and in the
    next buffer, and every entry of the two buffers is DEAD_CELL or LIVE_CELL:
    the constructor fills both with DEAD_CELL only, [setCell] with a DEAD_CELL
    or LIVE_CELL argument keeps the property, and [update] returns and keeps
    the property. *)
Theorem buffers_hold_dead_or_live_only :
  (∀ w h, all_dead (cells (new_Grid w h)) ∧ all_dead (next (new_Grid w h)) ∧
          binary_grid (new_Grid w h)) ∧
  (∀ g row col v, v = DEAD_CELL ∨ v = LIVE_CELL → binary_grid g →
                  binary_grid (setCell g row col v)) ∧
  (∀ g, reachable g → binary_grid g →
        ∃ g', update g = Some g' ∧ binary_grid g').
Proof.
  split; [|split].
  - intros w h. destruct (new_Grid_all_dead w h) as [Hc Hn].
    repeat split; try done; apply new_Grid_binary.
  - apply setCell_binary.
  - intros g Hg%reachable_wf. by apply update_binary_grid.
Qed.

Lemma buffers_hold_dead_or_live_only_witness :
  binary_grid centre_grid ∧
  ∃ g', update centre_grid = Some g' ∧ binary_grid g'.
Proof.
  destruct buffers_hold_dead_or_live_only as (Hnew & Hset & Hupd).
  assert (binary_grid centre_grid) as Hb.
  { apply Hset; [by right|]. apply Hnew. }
  split; [exact Hb|].
  apply Hupd; [|exact Hb]. apply reach_setCell, reach_new.
Defined.

(** ** The newborn report *)





(** * Further properties of the grid *)

Lemma isValidCell_setCell g row col v row' col' :
  isValidCell (setCell g row col v) row' col' = isValidCell g row' col'.
Proof.
  unfold isValidCell, _num_cells.
  by destruct (setCell_fields g row col v) as (-> & -> & _).
Qed.

Lemma getCell_after_setCell g row col v row' col' :
  getCell (setCell g row col v) row' col'
  = if isValidCell g row col && isValidCell g row' col'
       && bool_decide (row * width g + col = row' * width g + col')
    then Some v else getCell g row' col'.
Proof.
  unfold getCell. rewrite isValidCell_setCell.
  destruct (setCell_fields g row col v) as (-> & _).
  rewrite setCell_cells.
  destruct (isValidCell g row col), (isValidCell g row' col'); simpl; try done.
Qed.

(** X1.  What [getCell] reads after a [setCell]: the new value when both
    positions pass the validity test and share a buffer index, and what it
    read before otherwise. *)
Theorem getCell_setCell g row col v row' col' :
  getCell (setCell g row col v) row' col'
  = if isValidCell g row col && isValidCell g row' col'
       && bool_decide (row * width g + col = row' * width g + col')
    then Some v else getCell g row' col'.
Proof. apply getCell_after_setCell. Qed.

(** X2.  Two positions of the grid share a buffer index only when they are
    the same position, so [setCell] on one position of the grid leaves what
    [getCell] reads at every other position of the grid unchanged. *)
Theorem getCell_setCell_other g row col v row' col' :
  in_grid g row col → in_grid g row' col' → (row, col) ≠ (row', col') →
  getCell (setCell g row col v) row' col' = getCell g row' col'.
Proof.
  intros [Hr Hc] [Hr' Hc'] Hne. rewrite getCell_after_setCell.
  case_bool_decide as Heq; [|by rewrite andb_false_r].
  apply index_inj in Heq as [-> ->]; done.
Qed.

Lemma getCell_setCell_other_witness :
  getCell (setCell (new_Grid 3 3) 1 1 LIVE_CELL) 0 2
  = getCell (new_Grid 3 3) 0 2.
Proof.
  apply getCell_setCell_other.
  - vm_compute. repeat split; congruence.
  - vm_compute. repeat split; congruence.
  - congruence.
Defined.

(** X3.  A second [setCell] at the same position replaces the first: only the
    last value written counts. *)
Theorem setCell_setCell g row col v1 v2 :
  setCell (setCell g row col v1) row col v2 = setCell g row col v2.
Proof.
  unfold setCell at 1. rewrite isValidCell_setCell.
  destruct (setCell_fields g row col v1) as (-> & -> & -> & -> & ->).
  unfold setCell. destruct (isValidCell g row col); [|done].
  simpl. by rewrite insert_insert_eq.
Qed.

(** ** Generations *)

Lemma countLiving_all_dead g kind i j :
  all_dead (cells g) →
  countLiving g kind i j = Int 0 ∨ countLiving g kind i j = NaN.
Proof.
  intros Hdead. rewrite countLiving_neighbors.
  assert (∀ ps n, n = Int 0 ∨ n = NaN →
            let r := foldl (λ n p, num_add n (cells g !! (p.1 * width g + p.2)))
                           n ps in r = Int 0 ∨ r = NaN) as Hfold.
  { induction ps as [|p ps IH]; intros n Hn; simpl; [done|]. apply IH.
    destruct (cells g !! _) as [v|] eqn:Hv.
    - apply Hdead in Hv as ->. destruct Hn as [-> | ->]; auto.
    - destruct Hn as [-> | ->]; auto. }
  apply Hfold. by left.
Qed.

Lemma getCell_all_dead g i j :
  all_dead (cells g) → getCell g i j ≠ Some LIVE_CELL.
Proof.
  intros Hdead. unfold getCell. destruct (isValidCell g i j); [|done].
  intros Hv. by apply Hdead in Hv.
Qed.

Lemma filter_nothing {A} (P : A → Prop) `{∀ x, Decision (P x)} (l : list A) :
  (∀ x, x ∈ l → ¬ P x) → filter P l = [].
Proof.
  induction l as [|x l IH]; intros Hl; [done|].
  rewrite filter_cons, decide_False by (apply Hl, list_elem_of_here).
  apply IH. intros y Hy. by apply Hl, list_elem_of_further.
Qed.

(** X4.  An extinct grid stays extinct: when every entry of the current
    buffer is DEAD_CELL, [update] returns a grid whose current buffer holds
    DEAD_CELL at every position, and the newborn report has an empty list in
    each of its rows.  This holds for every width and height, also on the
    edges where the neighbour sum is NaN. *)
Theorem update_extinct g :
  Grid_wf g → all_dead (cells g) →
  ∃ g', update g = Some g' ∧
    (∀ row col, in_grid g row col →
       cells g' !! (row * width g + col) = Some DEAD_CELL) ∧
    (∀ i, 0 ≤ i < height g → newborns g' !! i = Some []).
Proof.
  intros Hwf Hdead. destruct (update_total g Hwf) as (g' & Hup & Hupd).
  exists g'. split; [done|]. destruct Hupd as [_ _ _ _ Hin _ Hborn].
  assert (∀ i j, num_eqb (living g i j) 3 = false) as Hsum.
  { intros i j. unfold living.
    by destruct (countLiving_all_dead g
                   (_getCellType (width g) (height g) i j) i j Hdead)
      as [-> | ->]. }
  split.
  - intros row col Hpos. rewrite Hin by done. f_equal.
    unfold nextCell, next_value.
    rewrite decide_False by (by apply getCell_all_dead). by rewrite Hsum.
  - intros i Hi. rewrite Hborn, decide_True by done. f_equal.
    apply filter_nothing. intros j _. unfold born, is_newborn.
    rewrite decide_False by (by apply getCell_all_dead). rewrite Hsum. intros [].
Qed.

Lemma update_extinct_witness :
  ∃ g', update (new_Grid 4 3) = Some g' ∧
    (∀ row col, in_grid (new_Grid 4 3) row col →
       cells g' !! (row * width (new_Grid 4 3) + col) = Some DEAD_CELL) ∧
    (∀ i, 0 ≤ i < height (new_Grid 4 3) → newborns g' !! i = Some []).
Proof.
  apply update_extinct; [apply new_Grid_wf|apply new_Grid_all_dead].
Defined.

Lemma births_recorded g g' i cols j :
  Grid_wf g → update g = Some g' → newborns g' !! i = Some cols →
  j ∈ cols ↔
    0 ≤ j < width g ∧ getCell g i j ≠ Some LIVE_CELL ∧
    cells g' !! (i * width g + j) = Some LIVE_CELL.
Proof.
  intros Hwf Hup Hrow.
  destruct (update_updates g g' Hwf Hup) as [_ _ _ _ Hin _ Hborn].
  rewrite Hborn in Hrow. case_decide as Hi; [|done]. injection Hrow as <-.
  rewrite list_elem_of_filter, elem_of_seqZ.
  assert (0 ≤ j < width g →
          (born g i j ↔ getCell g i j ≠ Some LIVE_CELL ∧
                        cells g' !! (i * width g + j) = Some LIVE_CELL))
    as Hiff.
  { intros Hj. rewrite Hin by done. unfold born, nextCell, is_newborn,
      next_value.
    destruct (decide (getCell g i j = Some LIVE_CELL)) as [Hlive|Hlive].
    - split; [done|]. by intros [? _].
    - destruct (num_eqb (living g i j) 3); simpl; split; try done.
      by intros [_ [=]]. }
  split.
  - intros [Hb Hj]. assert (0 ≤ j < width g) as Hj' by lia.
    split; [done|]. by apply Hiff.
  - intros (Hj & Hrest). split; [by apply Hiff|lia].
Qed.

(** X5.  The newborn report lists exactly the births: column [j] is recorded
    in row [i] if and only if [getCell] did not read LIVE_CELL at [(i, j)]
    before the update and the new current buffer holds LIVE_CELL there. *)
Theorem newborns_are_the_births g g' i cols j :
  Grid_wf g → update g = Some g' → newborns g' !! i = Some cols →
  j ∈ cols ↔
    0 ≤ j < width g ∧ getCell g i j ≠ Some LIVE_CELL ∧
    cells g' !! (i * width g + j) = Some LIVE_CELL.
Proof. apply births_recorded. Qed.

Lemma newborns_are_the_births_witness :
  ∃ g' cols, update blinker_grid = Some g' ∧ newborns g' !! 1 = Some cols ∧
    (2 ∈ cols ↔
      0 ≤ 2 < width blinker_grid ∧
      getCell blinker_grid 1 2 ≠ Some LIVE_CELL ∧
      cells g' !! (1 * width blinker_grid + 2) = Some LIVE_CELL).
Proof.
  eexists _, _. split; [vm_compute; reflexivity|].
  split; [vm_compute; reflexivity|].
  apply newborns_are_the_births.
  - vm_compute. reflexivity.
  - vm_compute. reflexivity.
  - vm_compute. reflexivity.
Defined.

(** ** The edges, generation after generation *)

Lemma reachable_filled g :
  reachable g → ∀ row col, in_grid g row col →
    is_Some (cells g !! (row * width g + col)) ∧
    is_Some (next g !! (row * width g + col)).
Proof.
  induction 1 as [w h|g row col v Hg IH|g g' Hg IH Hup];
    intros r c Hpos; unfold in_grid in Hpos.
  - rewrite new_Grid_width, new_Grid_height in *.
    destruct (new_Grid_in w h r c) as (-> & -> & _); try lia.
    split; by eexists.
  - destruct (setCell_fields g row col v) as (Hw & Hh & Hn & _).
    rewrite Hw, Hh in *. rewrite Hn, setCell_cells.
    destruct (IH r c Hpos) as [Hc Hx]. split; [|done].
    by destruct (_ && _).
  - destruct (update_updates g g' (reachable_wf g Hg) Hup)
      as [Hw Hh _ Hnext Hin _ _].
    rewrite Hw, Hh in *. rewrite Hnext, Hin by done.
    split; [by eexists|]. by apply IH.
Qed.

Lemma stateAt_lookup g row col :
  reachable g → in_grid g row col →
  cells g !! (row * width g + col) = Some (stateAt g row col).
Proof.
  intros Hg Hpos. unfold stateAt.
  by destruct (reachable_filled g Hg row col Hpos) as [[v ->] _].
Qed.

(** X6.  The bottom row is frozen.  At a bottom-row position other than the
    two corners and the column [height - 1], the neighbour sum is NaN at
    every generation, so [update] keeps a LIVE_CELL there, stores DEAD_CELL
    for anything else, and never reports a birth there. *)
Theorem bottom_row_is_frozen g g' j :
  reachable g → update g = Some g' → 1 < height g →
  0 < j < width g - 1 → j ≠ height g - 1 →
  cells g' !! ((height g - 1) * width g + j)
  = Some (if decide (stateAt g (height g - 1) j = LIVE_CELL)
          then LIVE_CELL else DEAD_CELL) ∧
  ∀ cols, newborns g' !! (height g - 1) = Some cols → j ∉ cols.
Proof.
  intros Hg Hup Hh Hj Hne. pose proof (reachable_wf g Hg) as Hwf.
  destruct (update_updates g g' Hwf Hup) as [_ _ _ _ Hin _ _].
  assert (in_grid g (height g - 1) j) as Hpos by (unfold in_grid; lia).
  assert (living g (height g - 1) j = NaN) as Hnan.
  { apply living_bottom_row; try lia. by apply reachable_bounded. }
  assert (getCell g (height g - 1) j = Some (stateAt g (height g - 1) j))
    as Hget.
  { rewrite getCell_in_grid by (done || lia). by apply stateAt_lookup. }
  split.
  - rewrite Hin by done. f_equal. unfold nextCell, next_value.
    rewrite Hnan, Hget. simpl.
    destruct (decide (stateAt g (height g - 1) j = LIVE_CELL)) as [->|Hd].
    + by rewrite decide_True.
    + rewrite decide_False; [done|congruence].
  - intros cols Hrow Hin'.
    apply (births_recorded g g' _ cols j Hwf Hup Hrow) in Hin'
      as (_ & Hold & Hnew).
    rewrite Hin in Hnew by done. injection Hnew as Hnew.
    unfold nextCell, next_value in Hnew. rewrite Hnan in Hnew.
    by rewrite decide_False in Hnew.
Qed.

(** X7.  The right column wraps around.  At a right-column position between
    the corners, the new state follows the rule applied to the sum of five
    states: the two neighbours on the left in this row and the row above,
    the neighbour above, and the cells of column 0 in this row and in the
    next row; the neighbours below and below-left are not counted. *)
Theorem right_column_wraps g g' i :
  reachable g → update g = Some g' → 1 < width g →
  0 < i < height g - 1 →
  cells g' !! (i * width g + (width g - 1))
  = Some (spec_rule (stateAt g i (width g - 1))
            (stateAt g i (width g - 2) + stateAt g (i - 1) (width g - 2)
             + stateAt g (i - 1) (width g - 1)
             + stateAt g i 0 + stateAt g (i + 1) 0)).
Proof.
  intros Hg Hup Hw Hi. pose proof (reachable_wf g Hg) as Hwf.
  destruct (update_updates g g' Hwf Hup) as [_ _ _ _ Hin _ _].
  assert (in_grid g i (width g - 1)) as Hpos by (unfold in_grid; lia).
  rewrite Hin by done. f_equal. unfold nextCell.
  rewrite getCell_in_grid, (stateAt_lookup g) by (done || lia).
  rewrite (living_right_column g (stateAt g))
    by (done || lia || (intros; by apply stateAt_lookup)).
  rewrite next_value_spec_rule. f_equal.
  unfold total. cbn [foldl fst snd].
  replace (width g - 1 - 1) with (width g - 2) by lia. lia.
Qed.

(** X8.  The last cell forgets its state.  [update] reads the bottom-right
    cell through [getCell], which answers -1 there: on a grid that is not
    square the cell is DEAD_CELL after every update; on a square grid it is
    LIVE_CELL exactly when its three neighbours sum to 3, whatever it held
    before. *)
Theorem last_cell_forgets_its_state g g' :
  reachable g → update g = Some g' → 1 < width g → 1 < height g →
  cells g' !! ((height g - 1) * width g + (width g - 1))
  = Some (if decide (width g = height g ∧
                     stateAt g (height g - 1) (width g - 2)
                     + stateAt g (height g - 2) (width g - 2)
                     + stateAt g (height g - 2) (width g - 1) = 3)
          then LIVE_CELL else DEAD_CELL).
Proof.
  intros Hg Hup Hw Hh. pose proof (reachable_wf g Hg) as Hwf.
  destruct (update_updates g g' Hwf Hup) as [_ _ _ _ Hin _ _].
  assert (in_grid g (height g - 1) (width g - 1)) as Hpos
    by (unfold in_grid; lia).
  rewrite Hin by done. f_equal. unfold nextCell, next_value.
  rewrite getCell_last, decide_False by done.
  destruct (decide (width g = height g)) as [Heq|Hne].
  - rewrite (living_bottom_row_diagonal g (stateAt g))
      by (done || lia || (intros; by apply stateAt_lookup)).
    unfold total. cbn [foldl fst snd num_eqb].
    replace (width g - 1 - 1) with (width g - 2) by lia.
    replace (height g - 1 - 1) with (height g - 2) by lia.
    destruct (Z.eqb_spec
                (0 + stateAt g (height g - 1) (width g - 2)
                 + stateAt g (height g - 2) (width g - 2)
                 + stateAt g (height g - 2) (width g - 1)) 3) as [Hs|Hs].
    + rewrite decide_True; [done|]. split; [done|lia].
    + rewrite decide_False; [done|]. intros [_ ?]. lia.
  - rewrite living_bottom_row by (lia || by apply reachable_bounded).
    simpl. rewrite decide_False; [done|]. by intros [? _].
Qed.

Lemma bottom_row_is_frozen_witness :
  ∃ g', update bottom_cell_grid = Some g' ∧
    cells g' !! ((height bottom_cell_grid - 1) * width bottom_cell_grid + 2)
    = Some (if decide (stateAt bottom_cell_grid
                         (height bottom_cell_grid - 1) 2 = LIVE_CELL)
            then LIVE_CELL else DEAD_CELL) ∧
    ∀ cols, newborns g' !! (height bottom_cell_grid - 1) = Some cols →
            2 ∉ cols.
Proof.
  assert (reachable bottom_cell_grid) as Hg
    by apply reach_setCell, reach_new.
  destruct (update_total bottom_cell_grid (reachable_wf _ Hg))
    as (g' & Hup & _).
  exists g'. split; [exact Hup|].
  apply (bottom_row_is_frozen bottom_cell_grid g' 2 Hg Hup);
    vm_compute; repeat split; congruence.
Defined.

Lemma right_column_wraps_witness :
  ∃ g', update blinker_grid = Some g' ∧
    cells g' !! (2 * width blinker_grid + (width blinker_grid - 1))
    = Some (spec_rule (stateAt blinker_grid 2 (width blinker_grid - 1))
              (stateAt blinker_grid 2 (width blinker_grid - 2)
               + stateAt blinker_grid (2 - 1) (width blinker_grid - 2)
               + stateAt blinker_grid (2 - 1) (width blinker_grid - 1)
               + stateAt blinker_grid 2 0 + stateAt blinker_grid (2 + 1) 0)).
Proof.
  assert (reachable blinker_grid) as Hg
    by (do 3 apply reach_setCell; apply reach_new).
  destruct (update_total blinker_grid (reachable_wf _ Hg)) as (g' & Hup & _).
  exists g'. split; [exact Hup|].
  apply (right_column_wraps blinker_grid g' 2 Hg Hup);
    vm_compute; repeat split; congruence.
Defined.

Lemma last_cell_forgets_its_state_witness :
  ∃ g', update bottom_cell_grid = Some g' ∧
    cells g' !! ((height bottom_cell_grid - 1) * width bottom_cell_grid
                 + (width bottom_cell_grid - 1))
    = Some (if decide (width bottom_cell_grid = height bottom_cell_grid ∧
                       stateAt bottom_cell_grid (height bottom_cell_grid - 1)
                               (width bottom_cell_grid - 2)
                       + stateAt bottom_cell_grid
                                 (height bottom_cell_grid - 2)
                                 (width bottom_cell_grid - 2)
                       + stateAt bottom_cell_grid
                                 (height bottom_cell_grid - 2)
                                 (width bottom_cell_grid - 1) = 3)
            then LIVE_CELL else DEAD_CELL).
Proof.
  assert (reachable bottom_cell_grid) as Hg
    by apply reach_setCell, reach_new.
  destruct (update_total bottom_cell_grid (reachable_wf _ Hg))
    as (g' & Hup & _).
  exists g'. split; [exact Hup|].
  apply (last_cell_forgets_its_state bottom_cell_grid g' Hg Hup);
    vm_compute; repeat split; congruence.
Defined.

(** X9.  Away from the bottom row and the right column [update] is the
    standard rule: when every entry of the current buffer is DEAD_CELL or
    LIVE_CELL, the new state of such a position is the rule applied to its
    old state and to the number of LIVE_CELL entries among the surrounding
    positions that lie in the grid. *)
Theorem update_is_standard_rule_inside g g' i j :
  reachable g → binary (cells g) → update g = Some g' →
  1 < width g → 1 < height g →
  0 ≤ i < height g - 1 → 0 ≤ j < width g - 1 →
  cells g' !! (i * width g + j)
  = Some (spec_rule (stateAt g i j) (spec_liveNeighbors g i j)).
Proof.
  intros Hg Hbin Hup Hw Hh Hi Hj.
  set (st := λ r c, if decide (stateAt g r c = LIVE_CELL)
                    then LIVE_CELL else DEAD_CELL).
  assert (∀ r c, in_grid g r c → st r c = stateAt g r c) as Hsame.
  { intros r c Hpos. unfold st. case_decide as Hs; [done|].
    pose proof (stateAt_lookup g r c Hg Hpos) as Hlook.
    apply Hbin in Hlook as [?|?]; [done|contradiction]. }
  rewrite <- (Hsame i j) by (unfold in_grid; lia).
  apply (update_follows_rule_off_far_edges g st); try done.
  - intros r c Hpos. rewrite Hsame by done. by apply stateAt_lookup.
  - intros r c. unfold st. case_decide; auto.
  - by apply reachable_wf.
Qed.

Lemma update_is_standard_rule_inside_witness :
  ∃ g', update blinker_grid = Some g' ∧
    cells g' !! (1 * width blinker_grid + 2)
    = Some (spec_rule (stateAt blinker_grid 1 2)
              (spec_liveNeighbors blinker_grid 1 2)).
Proof.
  assert (reachable blinker_grid) as Hg
    by (do 3 apply reach_setCell; apply reach_new).
  destruct (update_total blinker_grid (reachable_wf _ Hg)) as (g' & Hup & _).
  exists g'. split; [exact Hup|].
  assert (binary_grid blinker_grid) as [[Hbin _] _].
  { unfold blinker_grid.
    do 3 (apply setCell_binary; [by right|]). apply new_Grid_binary. }
  apply (update_is_standard_rule_inside blinker_grid g' 1 2 Hg Hbin Hup);
    vm_compute; repeat split; congruence.
Defined.

(** ** Drawing *)

Lemma bind_ext_in {A B} (f f' : A → list B) (l : list A) :
  (∀ x, x ∈ l → f x = f' x) → l ≫= f = l ≫= f'.
Proof.
  induction l as [|a l IH]; intros Hf; [done|].
  rewrite !bind_cons, (Hf a), IH; [done| |apply list_elem_of_here].
  intros x Hx. apply Hf. by apply list_elem_of_further.
Qed.

Lemma bind_nil_in {A B} (f : A → list B) (l : list A) :
  (∀ x, x ∈ l → f x = []) → l ≫= f = [].
Proof.
  induction l as [|a l IH]; intros Hf; [done|].
  rewrite bind_cons, (Hf a), IH; [done| |apply list_elem_of_here].
  intros x Hx. apply Hf. by apply list_elem_of_further.
Qed.

(** The pass of the outer loop at [i = grid.height] fills nothing. *)
Lemma renderCells_extra_pass g cellLength :
  (j ← seqZ 0 (width g);
   if decide (getCell g (height g) j = Some LIVE_CELL)
   then [mkRect (j * cellLength) (height g * cellLength) cellLength cellLength]
   else []) = [].
Proof.
  apply bind_nil_in. intros j Hj%elem_of_seqZ.
  rewrite decide_False; [done|].
  unfold getCell. rewrite isValidCell_beyond by lia. done.
Qed.

(** X10.  [renderCells] fills one square per live cell that [getCell] can
    see, and nothing else: its calls of [fillRect] are, in this order and
    with nothing added or repeated, those of the positions of the grid taken
    row by row and, in a row, column by column, one call for each position
    other than the bottom-right one whose buffer entry is LIVE_CELL.  The
    extra pass of the loop at [i = grid.height] draws nothing, and a live
    bottom-right cell is never drawn. *)
Theorem renderCells_draws_visible_live_cells g cellLength :
  renderCells g cellLength =
  i ← seqZ 0 (height g);
  j ← seqZ 0 (width g);
  if decide (¬ (i = height g - 1 ∧ j = width g - 1) ∧
             cells g !! (i * width g + j) = Some LIVE_CELL)
  then [mkRect (j * cellLength) (i * cellLength) cellLength cellLength]
  else [].
Proof.
  unfold renderCells.
  assert (seqZ 0 (height g + 1) ≫=
            (λ i, j ← seqZ 0 (width g);
               if decide (getCell g i j = Some LIVE_CELL)
               then [mkRect (j * cellLength) (i * cellLength)
                            cellLength cellLength]
               else [])
          = seqZ 0 (height g) ≫=
            (λ i, j ← seqZ 0 (width g);
               if decide (getCell g i j = Some LIVE_CELL)
               then [mkRect (j * cellLength) (i * cellLength)
                            cellLength cellLength]
               else [])) as ->.
  { destruct (decide (0 ≤ height g)) as [Hh|Hh].
    - rewrite seqZ_app by lia. rewrite bind_app.
      change (seqZ (0 + height g) 1) with [height g].
      rewrite bind_cons, renderCells_extra_pass. apply app_nil_r.
    - by rewrite (seqZ_nil 0 (height g + 1)), (seqZ_nil 0 (height g)) by lia. }
  apply bind_ext_in. intros i Hi%elem_of_seqZ.
  apply bind_ext_in. intros j Hj%elem_of_seqZ.
  apply decide_ext.
  destruct (decide (i = height g - 1 ∧ j = width g - 1)) as [[-> ->]|Hlast].
  - rewrite getCell_last. split; [done|]. by intros [[] _].
  - rewrite getCell_in_grid by (done || (unfold in_grid; lia)).
    split; [done|by intros [_ ?]].
Qed.

(** ** Stamping a pattern *)

(** Induction two offsets at a time. *)
Lemma pairs_ind (P : list Z → Prop) :
  P [] → (∀ x, P [x]) → (∀ x y l, P l → P (x :: y :: l)) → ∀ l, P l.
Proof.
  intros Hnil Hone Hstep l.
  assert (P l ∧ ∀ x, P (x :: l)) as [? _]; [|done].
  induction l as [|y l [IH1 IH2]]; [by split|].
  split; [apply IH2|]. intros x. by apply Hstep.
Qed.

Lemma stamp_fields g r c pixels :
  width (stamp g r c pixels) = width g ∧
  height (stamp g r c pixels) = height g ∧
  next (stamp g r c pixels) = next g ∧
  newborns (stamp g r c pixels) = newborns g ∧
  cell_types (stamp g r c pixels) = cell_types g.
Proof.
  revert g. induction pixels as [|x|x y l IH] using pairs_ind; intros g;
    [done..|].
  simpl. destruct (IH (setCell g (r + y) (c + x) LIVE_CELL))
    as (-> & -> & -> & -> & ->).
  apply setCell_fields.
Qed.

Lemma isValidCell_stamp g r c pixels row col :
  isValidCell (stamp g r c pixels) row col = isValidCell g row col.
Proof.
  unfold isValidCell, _num_cells.
  by destruct (stamp_fields g r c pixels) as (-> & -> & _).
Qed.

Lemma existsb_lands_on_setCell g row col v r c k ps :
  existsb (lands_on (setCell g row col v) r c k) ps
  = existsb (lands_on g r c k) ps.
Proof.
  induction ps as [|p ps IH]; [done|]. simpl. rewrite IH. f_equal.
  unfold lands_on. rewrite isValidCell_setCell.
  by destruct (setCell_fields g row col v) as (-> & _).
Qed.

Lemma stamp_lookup g r c pixels k :
  cells (stamp g r c pixels) !! k
  = if existsb (lands_on g r c k) (pairs pixels)
    then Some LIVE_CELL else cells g !! k.
Proof.
  revert g. induction pixels as [|x|x y l IH] using pairs_ind; intros g;
    [done..|].
  cbn [stamp pairs existsb]. rewrite IH, setCell_cells.
  rewrite existsb_lands_on_setCell.
  unfold lands_on at 2. cbn [fst snd].
  destruct (existsb _ _); [by rewrite orb_true_r|].
  rewrite orb_false_r. done.
Qed.

(** X11.  What stamping leaves in the current buffer: LIVE_CELL at every
    index on which a pattern pixel lands with a position that passes the
    validity test, and the old entry everywhere else.  Pixels that fail the
    test are dropped without a trace, and so is a last offset without a
    partner. *)
Theorem stamp_cells g r c pixels k :
  cells (stamp g r c pixels) !! k
  = if existsb (lands_on g r c k) (pairs pixels)
    then Some LIVE_CELL else cells g !! k.
Proof. apply stamp_lookup. Qed.

Lemma Grid_eq (g1 g2 : Grid) :
  cells g1 = cells g2 → next g1 = next g2 → width g1 = width g2 →
  height g1 = height g2 → newborns g1 = newborns g2 →
  cell_types g1 = cell_types g2 → g1 = g2.
Proof. destruct g1, g2. simpl. by intros -> -> -> -> -> ->. Qed.

Lemma existsb_lands_on_stamp g r' c' pixels r c k ps :
  existsb (lands_on (stamp g r' c' pixels) r c k) ps
  = existsb (lands_on g r c k) ps.
Proof.
  induction ps as [|p ps IH]; [done|]. simpl. rewrite IH. f_equal.
  unfold lands_on. rewrite isValidCell_stamp.
  by destruct (stamp_fields g r' c' pixels) as (-> & _).
Qed.

(** X12.  Stamping is idempotent: a second click at the same place with the
    same pattern changes nothing. *)
Theorem stamp_twice g r c pixels :
  stamp (stamp g r c pixels) r c pixels = stamp g r c pixels.
Proof.
  destruct (stamp_fields (stamp g r c pixels) r c pixels)
    as (Hw & Hh & Hn & Hb & Ht).
  apply Grid_eq; try done.
  apply map_eq. intros k.
  rewrite stamp_lookup, existsb_lands_on_stamp, stamp_lookup.
  by destruct (existsb _ _).
Qed.

(** X13.  Stamping only gives life: a buffer entry that was LIVE_CELL is
    still LIVE_CELL afterwards, and when every position has an entry and
    every entry of the two buffers is DEAD_CELL or LIVE_CELL before, the
    same holds afterwards. *)
Theorem stamp_only_gives_life g r c pixels :
  (∀ k, cells g !! k = Some LIVE_CELL →
        cells (stamp g r c pixels) !! k = Some LIVE_CELL) ∧
  (binary_grid g → binary_grid (stamp g r c pixels)).
Proof.
  split.
  - intros k Hk. rewrite stamp_lookup. by destruct (existsb _ _).
  - revert g. induction pixels as [|x|x y l IH] using pairs_ind; intros g Hg;
      [done..|].
    simpl. apply IH, setCell_binary; [by right|done].
Qed.

Lemma stamp_only_gives_life_witness :
  (∀ k, cells centre_grid !! k = Some LIVE_CELL →
        cells (stamp centre_grid 0 1 [0; 0; 1; 1; 5; 5]) !! k
        = Some LIVE_CELL) ∧
  binary_grid (stamp centre_grid 0 1 [0; 0; 1; 1; 5; 5]).
Proof.
  destruct (stamp_only_gives_life centre_grid 0 1 [0; 0; 1; 1; 5; 5])
    as [Hlive Hbin].
  split; [exact Hlive|]. apply Hbin. unfold centre_grid.
  apply setCell_binary; [by right|]. apply new_Grid_binary.
Defined.

Lemma pairs_nonneg pixels p :
  Forall (λ v, 0 ≤ v) pixels → p ∈ pairs pixels → 0 ≤ p.1 ∧ 0 ≤ p.2.
Proof.
  revert p. induction pixels as [|x|x y l IH] using pairs_ind;
    intros p Hall Hp; [by apply elem_of_nil in Hp..|].
  apply Forall_cons in Hall as [Hx Hall].
  apply Forall_cons in Hall as [Hy Hall].
  simpl in Hp. apply elem_of_cons in Hp as [->|Hp]; [done|by apply IH].
Qed.

Lemma existsb_lands_on g r c k ps :
  existsb (lands_on g r c k) ps = true ↔
  ∃ p, p ∈ ps ∧ isValidCell g (r + p.2) (c + p.1) = true ∧
       (r + p.2) * width g + (c + p.1) = k.
Proof.
  rewrite existsb_exists. unfold lands_on. split.
  - intros (p & Hp%list_elem_of_In & Hland).
    apply andb_true_iff in Hland as [Hv Hk%bool_decide_eq_true].
    by exists p.
  - intros (p & Hp%list_elem_of_In & Hv & Hk). exists p.
    split; [done|]. rewrite Hv. by apply bool_decide_eq_true.
Qed.

(** X14.  A click inside the canvas with a pattern of non-negative offsets
    writes inside the grid only, and at the right places: a position of the
    grid other than the bottom-right one holds LIVE_CELL afterwards when the
    pattern has a pixel for it and keeps its entry when it has none; no
    other entry of the buffer changes.  The negative positions that
    [setCell] would accept cannot arise from a click. *)
Theorem click_stamps_inside_the_grid g cellLength x y pixels :
  0 < cellLength → 0 ≤ x → 0 ≤ y → Forall (λ v, 0 ≤ v) pixels →
  let g' := respondToMouseClick g cellLength x y pixels in
  (∀ row col, in_grid g row col →
     ¬ (row = height g - 1 ∧ col = width g - 1) →
     cells g' !! (row * width g + col)
     = if bool_decide ((col - x / cellLength, row - y / cellLength)
                       ∈ pairs pixels)
       then Some LIVE_CELL else cells g !! (row * width g + col)) ∧
  (∀ k, ¬ (0 ≤ k < width g * height g - 1) → cells g' !! k = cells g !! k).
Proof.
  intros Hlen Hx Hy Hall g'. subst g'. unfold respondToMouseClick.
  assert (0 ≤ x / cellLength) as Hc by (apply Z.div_pos; lia).
  assert (0 ≤ y / cellLength) as Hr by (apply Z.div_pos; lia).
  set (c := x / cellLength) in *. set (r := y / cellLength) in *.
  assert (∀ p k, p ∈ pairs pixels →
            isValidCell g (r + p.2) (c + p.1) = true →
            (r + p.2) * width g + (c + p.1) = k →
            in_grid g (r + p.2) (c + p.1) ∧ 0 ≤ k < width g * height g - 1)
    as Hinside.
  { intros p k Hp Hv Hk. destruct (pairs_nonneg pixels p Hall Hp) as [H1 H2].
    apply isValidCell_spec in Hv as [Hv1 Hv2]. unfold in_grid. nia. }
  split.
  - intros row col [Hrow Hcol] Hlast. rewrite stamp_lookup.
    destruct (existsb _ _) eqn:Hex.
    + apply existsb_lands_on in Hex as (p & Hp & Hv & Hk).
      destruct (Hinside p _ Hp Hv Hk) as [[Hr' Hc'] _].
      apply index_inj in Hk as [Hk1 Hk2]; [|lia..].
      rewrite bool_decide_eq_true_2; [done|].
      replace (col - c, row - r) with p; [done|].
      destruct p as [p1 p2]. simpl in *. f_equal; lia.
    + rewrite bool_decide_eq_false_2; [done|]. intros Hp.
      apply not_true_iff_false in Hex. apply Hex, existsb_lands_on.
      exists (col - c, row - r). simpl. split; [done|].
      replace (r + (row - r)) with row by lia.
      replace (c + (col - c)) with col by lia.
      split; [|done]. by apply isValidCell_in_grid.
  - intros k Hk. rewrite stamp_lookup.
    destruct (existsb _ _) eqn:Hex; [|done].
    apply existsb_lands_on in Hex as (p & Hp & Hv & Hidx).
    destruct (Hinside p _ Hp Hv Hidx) as [_ ?]. lia.
Qed.

Lemma click_stamps_inside_the_grid_witness :
  let g' := respondToMouseClick centre_grid 2 3 1 [0; 0; 1; 1; 5; 5] in
  (∀ row col, in_grid centre_grid row col →
     ¬ (row = height centre_grid - 1 ∧ col = width centre_grid - 1) →
     cells g' !! (row * width centre_grid + col)
     = if bool_decide ((col - 3 / 2, row - 1 / 2)
                       ∈ pairs [0; 0; 1; 1; 5; 5])
       then Some LIVE_CELL
       else cells centre_grid !! (row * width centre_grid + col)) ∧
  (∀ k, ¬ (0 ≤ k < width centre_grid * height centre_grid - 1) →
        cells g' !! k = cells centre_grid !! k).
Proof.
  apply (click_stamps_inside_the_grid centre_grid 2 3 1 [0; 0; 1; 1; 5; 5]);
    try lia.
  repeat (apply Forall_cons; split; [lia|]). apply Forall_nil_2.
Defined.

(** ** Loading a pattern *)

Lemma array_put_end (a : list Z) v : array_put a (length a) v = a ++ [v].
Proof. unfold array_put. rewrite decide_False; [done|lia]. Qed.

(** From an array and a counter at its end, the loop appends the column and
    the row of every pixel that passes the test. *)
Lemma keep_pixels_spec w data ks a :
  foldl (keep_pixel w data) (a, length a) ((λ k, 4 * k)%nat <$> ks)
  = (let kept := filter (λ k, non_white data (4 * k)) ks in
     let a' := a ++ (kept ≫= λ k, [Z.of_nat k `mod` w; Z.of_nat k / w]) in
     (a', length a')).
Proof.
  revert a. induction ks as [|k ks IH]; intros a; simpl.
  - by rewrite app_nil_r.
  - unfold keep_pixel at 2. rewrite filter_cons.
    destruct (non_white data (k + (k + (k + (k + 0))))) eqn:Hk; simpl.
    + replace (Z.of_nat (k + (k + (k + (k + 0)))) / 4) with (Z.of_nat k)
        by (rewrite <- (Z.div_mul (Z.of_nat k) 4) at 1 by lia; f_equal; lia).
      rewrite array_put_end.
      replace (length a + 1)%nat with (length (a ++ [Z.of_nat k `mod` w]))
        by (rewrite length_app; simpl; lia).
      rewrite array_put_end.
      replace (length a + 2)%nat
        with (length ((a ++ [Z.of_nat k `mod` w]) ++ [Z.of_nat k / w]))
        by (rewrite !length_app; simpl; lia).
      rewrite IH. cbn zeta. rewrite <- !app_assoc. done.
    + by rewrite IH.
Qed.

Lemma pairs_bind {A} (f : A → Z * Z) (l : list A) :
  pairs (l ≫= λ k, [(f k).1; (f k).2]) = f <$> l.
Proof.
  induction l as [|k l IH]; [done|].
  rewrite bind_cons, fmap_cons. cbn [app pairs]. rewrite IH.
  by destruct (f k).
Qed.

Lemma respondToLoadedImage_closed w data :
  respondToLoadedImage w data []
  = filter (λ k, non_white data (4 * k)) (seq 0 ((length data + 3) / 4))
    ≫= λ k, [Z.of_nat k `mod` w; Z.of_nat k / w].
Proof.
  unfold respondToLoadedImage. by rewrite (keep_pixels_spec w data _ []).
Qed.

Lemma respondToLoadedImage_pairs w data :
  pairs (respondToLoadedImage w data [])
  = (λ k, (Z.of_nat k `mod` w, Z.of_nat k / w))
      <$> filter (λ k, non_white data (4 * k))
                 (seq 0 ((length data + 3) / 4)).
Proof.
  rewrite respondToLoadedImage_closed.
  apply (pairs_bind (λ k, (Z.of_nat k `mod` w, Z.of_nat k / w))).
Qed.

Lemma non_white_in_range data i :
  non_white data i = true → (i + 2 < length data)%nat.
Proof.
  unfold non_white. intros H.
  destruct (data !! i); [|done]. destruct (data !! (i + 1)%nat); [|done].
  destruct (data !! (i + 2)%nat) eqn:Hb; [|done].
  by apply lookup_lt_Some in Hb.
Qed.

(** X15.  The pattern read from an image is the set of its dark pixels.  The
    pair (x, y) is in the pattern if and only if x is a column of the image,
    y is a row number, and the red, green and blue values of the pixel
    number [y * width + x] are all below 255.  A pixel with one channel at
    255, such as pure red, is left out like a white one; the alpha value
    plays no part. *)
Theorem loaded_pattern_is_the_dark_pixels w data x y :
  0 < w →
  (x, y) ∈ pairs (respondToLoadedImage w data []) ↔
  0 ≤ x < w ∧ 0 ≤ y ∧ non_white data (4 * Z.to_nat (y * w + x)) = true.
Proof.
  intros Hw. rewrite respondToLoadedImage_pairs, list_elem_of_fmap.
  setoid_rewrite list_elem_of_filter. setoid_rewrite elem_of_seq. split.
  - intros (k & [= -> ->] & Hk & _).
    pose proof (Z.mod_pos_bound (Z.of_nat k) w Hw).
    assert (0 ≤ Z.of_nat k / w) by (apply Z.div_pos; lia).
    do 2 (split; [done|]).
    replace (Z.of_nat k / w * w + Z.of_nat k `mod` w) with (Z.of_nat k)
      by (rewrite (Z.div_mod (Z.of_nat k) w) at 1 by lia; lia).
    rewrite Nat2Z.id. by apply Is_true_true.
  - intros (Hx & Hy & Hk). exists (Z.to_nat (y * w + x)).
    assert (0 ≤ y * w + x) by nia. rewrite Z2Nat.id by done.
    split; [|split].
    + f_equal.
      * symmetry. rewrite Z.add_comm, Z.mod_add by lia.
        apply Z.mod_small. lia.
      * symmetry. rewrite Z.add_comm, Z.div_add by lia.
        rewrite Z.div_small by lia. lia.
    + by apply Is_true_true.
    + apply non_white_in_range in Hk. split; [lia|].
      rewrite Nat.add_0_l. unfold lt.
      apply Nat.div_le_lower_bound; lia.
Qed.

Lemma loaded_pattern_is_the_dark_pixels_witness :
  (1, 0) ∈ pairs (respondToLoadedImage 2 [255; 255; 255; 255;
                                          0; 0; 0; 255;
                                          255; 0; 0; 255;
                                          10; 20; 30; 0] []) ↔
  0 ≤ 1 < 2 ∧ 0 ≤ 0 ∧
  non_white [255; 255; 255; 255; 0; 0; 0; 255; 255; 0; 0; 255; 10; 20; 30; 0]
            (4 * Z.to_nat (0 * 2 + 1)) = true.
Proof. apply loaded_pattern_is_the_dark_pixels. lia. Defined.

(** X16.  The offsets of a loaded pattern come in pairs and none is
    negative: the array has an even length and every entry is at least 0,
    so a pattern never reaches left of or above the cell that was
    clicked. *)
Theorem loaded_pattern_offsets w data :
  0 < w →
  Nat.Even (length (respondToLoadedImage w data [])) ∧
  Forall (λ v, 0 ≤ v) (respondToLoadedImage w data []).
Proof.
  intros Hw. rewrite respondToLoadedImage_closed.
  generalize (filter (λ k, non_white data (4 * k))
                     (seq 0 ((length data + 3) / 4))).
  intros kept. induction kept as [|k kept [IHe IHf]];
    [|rewrite bind_cons; cbn [app length]].
  - split; [by exists 0%nat|constructor].
  - split.
    + destruct IHe as [n Hn]. exists (S n). lia.
    + pose proof (Z.mod_pos_bound (Z.of_nat k) w Hw).
      assert (0 ≤ Z.of_nat k / w) by (apply Z.div_pos; lia).
      repeat (constructor; [lia|]). done.
Qed.

Lemma loaded_pattern_offsets_witness :
  Nat.Even (length (respondToLoadedImage 2 [0; 0; 0; 255; 9; 9; 9; 9] [])) ∧
  Forall (λ v, 0 ≤ v) (respondToLoadedImage 2 [0; 0; 0; 255; 9; 9; 9; 9] []).
Proof. apply loaded_pattern_offsets. lia. Defined.

(** ** The page *)

Lemma startGameOfLife_ok t : timing_ok t → timing_ok (startGameOfLife t).
Proof.
  intros [? ? Hint]. unfold startGameOfLife.
  destruct (timer t) as [h|] eqn:Ht; split; simpl; try done.
  - rewrite Hint, delete_singleton_eq. apply insert_empty.
  - rewrite Hint. apply insert_empty.
Qed.

Lemma pauseGameOfLife_ok t : timing_ok t → timing_ok (pauseGameOfLife t).
Proof.
  intros [? ? Hint]. unfold pauseGameOfLife.
  destruct (timer t) as [h|] eqn:Ht; split; simpl; try done.
  rewrite Hint. apply delete_singleton_eq.
Qed.

Lemma set_fps_ok t f :
  timing_ok t → MIN_FPS ≤ f ≤ MAX_FPS →
  timing_ok (let t1 := set_fps f (mkQuotient 1000 f) t in
             if timer t1 is Some _ then startGameOfLife t1 else t1).
Proof.
  intros [? ? Hint] Hf. cbn zeta.
  unfold startGameOfLife. simpl.
  destruct (timer t) as [h|] eqn:Ht; split; simpl; try done.
  - rewrite Hint, delete_singleton_eq. apply insert_empty.
  - by rewrite Ht.
Qed.

Lemma handle_event_ok e t : timing_ok t → timing_ok (handle_event e t).
Proof.
  intros Hok. destruct e; simpl; try done.
  - unfold playPause.
    destruct (timer t);
      [by apply pauseGameOfLife_ok|by apply startGameOfLife_ok].
  - unfold decFPS.
    destruct (Z.ltb_spec MIN_FPS (fps t)) as [Hlt|_]; [|done].
    apply set_fps_ok; [done|]. destruct Hok. unfold FPS_INC. lia.
  - unfold incFPS.
    destruct (Z.ltb_spec (fps t) MAX_FPS) as [Hlt|_]; [|done].
    apply set_fps_ok; [done|]. destruct Hok. unfold FPS_INC. lia.
Qed.

Lemma timing_reachable_ok t : timing_reachable t → timing_ok t.
Proof.
  induction 1 as [|e t _ IH]; [by split|by apply handle_event_ok].
Qed.

(** X17.  The frame rate stays within its limits: whatever buttons are
    pressed, and whatever else happens on the page, [fps] lies between
    [MIN_FPS] and [MAX_FPS], and [frameInterval] is [1000 / fps] for the
    current [fps]. *)
Theorem fps_stays_in_range t :
  timing_reachable t →
  MIN_FPS ≤ fps t ≤ MAX_FPS ∧
  frameInterval t = mkQuotient MILLISECONDS_IN_ONE_SECOND (fps t).
Proof. intros Ht%timing_reachable_ok. by destruct Ht. Qed.

Lemma fps_stays_in_range_witness :
  MIN_FPS ≤ fps (handle_event DecFPSButton initGameOfLifeData) ≤ MAX_FPS ∧
  frameInterval (handle_event DecFPSButton initGameOfLifeData)
  = mkQuotient MILLISECONDS_IN_ONE_SECOND
      (fps (handle_event DecFPSButton initGameOfLifeData)).
Proof.
  apply (fps_stays_in_range (handle_event DecFPSButton initGameOfLifeData)).
  apply timing_step, timing_init.
Defined.

(** X18.  Never two timers: at every moment the browser runs no interval
    while [timer] is [null], and while [timer] holds a handle it runs exactly
    the interval of that handle, with the period [1000 / fps] of the current
    [fps].  Starting twice, or changing the frame rate while running, leaves
    no stale interval behind. *)
Theorem one_interval_at_the_current_rate t :
  timing_reachable t →
  intervals t = if timer t is Some handle
                then {[handle := mkQuotient 1000 (fps t)]} else ∅.
Proof.
  intros Ht%timing_reachable_ok. destruct Ht as [_ Hi Hint].
  by rewrite Hint, Hi.
Qed.

Lemma one_interval_at_the_current_rate_witness :
  let t := handle_event IncFPSButton
             (handle_event DecFPSButton
                (handle_event PlayPauseButton initGameOfLifeData)) in
  intervals t = if timer t is Some handle
                then {[handle := mkQuotient 1000 (fps t)]} else ∅.
Proof.
  apply (one_interval_at_the_current_rate
           (handle_event IncFPSButton
              (handle_event DecFPSButton
                 (handle_event PlayPauseButton initGameOfLifeData)))).
  do 3 apply timing_step. apply timing_init.
Defined.

(** X19.  Slower then faster is where you were: while the simulation is
    paused, [incFPS] after [decFPS] gives the timing variables back when
    [fps] is above [MIN_FPS], and [decFPS] after [incFPS] gives them back
    when [fps] is below [MAX_FPS]. *)
Theorem fps_buttons_undo_each_other t :
  timing_reachable t → timer t = None →
  (MIN_FPS < fps t → incFPS (decFPS t) = t) ∧
  (fps t < MAX_FPS → decFPS (incFPS t) = t).
Proof.
  intros Hok%timing_reachable_ok Ht. destruct Hok as [Hf Hi _].
  unfold MIN_FPS, MAX_FPS, FPS_INC in *.
  destruct t as [tm f fi ints nh]. simpl in *. subst tm fi.
  unfold incFPS, decFPS, set_fps, MIN_FPS, MAX_FPS, FPS_INC,
    MILLISECONDS_IN_ONE_SECOND.
  split; intros Hlt; simpl.
  - rewrite (proj2 (Z.ltb_lt 1 f)) by done. simpl.
    rewrite (proj2 (Z.ltb_lt (f - 1) 30)) by lia. simpl.
    by replace (f - 1 + 1) with f by lia.
  - rewrite (proj2 (Z.ltb_lt f 30)) by done. simpl.
    rewrite (proj2 (Z.ltb_lt 1 (f + 1))) by lia. simpl.
    by replace (f + 1 - 1) with f by lia.
Qed.

Lemma fps_buttons_undo_each_other_witness :
  let t := handle_event DecFPSButton initGameOfLifeData in
  (MIN_FPS < fps t → incFPS (decFPS t) = t) ∧
  (fps t < MAX_FPS → decFPS (incFPS t) = t).
Proof.
  apply (fps_buttons_undo_each_other
           (handle_event DecFPSButton initGameOfLifeData));
    [apply timing_step, timing_init|reflexivity].
Defined.
